(** * Mini-Compiler: the tokenizer and the recursive-descent parser

    A shallow embedding of [lexer.cpp] / [parser.cpp].  The [Lexer] and the
    [Parser] are C++ classes with a cursor; both are modelled with explicit
    state passing.  [std::unique_ptr<AstNode>] may be null and is modelled
    as [option AstNode]. *)

From Stdlib Require Import Bool Arith NArith Lia List Ascii String.
Import ListNotations.
Open Scope string_scope.
Open Scope nat_scope.

(** ** Tokens *)

Inductive TokenType : Type :=
| KEYWORD_INT
| IDENTIFIER
| INTEGER_LITERAL
| OPERATOR_PLUS
| OPERATOR_MINUS
| OPERATOR_MULTIPLY
| OPERATOR_DIVIDE
| OPERATOR_ASSIGN
| PUNCTUATION_SEMICOLON
| END_OF_FILE
| UNKNOWN.

Definition TokenType_eq_dec (a b : TokenType) : {a = b} + {a <> b}.
Proof. decide equality. Defined.

Definition TokenType_eqb (a b : TokenType) : bool :=
  if TokenType_eq_dec a b then true else false.

Record Token : Type := mkToken { type : TokenType; value : string }.

(** ** <cctype> in the "C" locale

    [std::isspace], [std::isdigit], [std::isalpha] and [std::isalnum] over
    the 8-bit [char].  Bytes outside 0..127 belong to no class. *)

Definition isspace (c : ascii) : bool :=
  let n := nat_of_ascii c in (n =? 32) || ((9 <=? n) && (n <=? 13)).

Definition isdigit (c : ascii) : bool :=
  let n := nat_of_ascii c in (48 <=? n) && (n <=? 57).

Definition isalpha (c : ascii) : bool :=
  let n := nat_of_ascii c in
  ((65 <=? n) && (n <=? 90)) || ((97 <=? n) && (n <=? 122)).

Definition isalnum (c : ascii) : bool := isalpha c || isdigit c.

(** ** The Lexer *)

Module Lexer.

Record Lexer : Type := mkLexer { source_code : string; current_pos : nat }.

(** [Lexer(const std::string& source)] *)
Definition new (source : string) : Lexer :=
  {| source_code := source; current_pos := 0 |}.

(** The three scanning loops of the class share one shape,
    [while (current_pos < source_code.length() && p(source_code[current_pos]))
       current_pos++;]
    [scan p src pos fuel] is that loop; it returns the final [current_pos].
    A loop iteration needs [pos < length src], so [length src - pos]
    iterations are always enough (see [scan_exit]). *)
Fixpoint scan (p : ascii -> bool) (src : string) (pos fuel : nat) : nat :=
  match fuel with
  | 0 => pos
  | S fuel' =>
      match get pos src with
      | Some c => if p c then scan p src (S pos) fuel' else pos
      | None => pos
      end
  end.

Definition scan_from (p : ascii -> bool) (lx : Lexer) : Lexer :=
  let src := source_code lx in
  let pos := current_pos lx in
  {| source_code := src; current_pos := scan p src pos (length src - pos) |}.

Definition skipWhitespace (lx : Lexer) : Lexer := scan_from isspace lx.

(** [current_pos++] *)
Definition bump (lx : Lexer) : Lexer :=
  {| source_code := source_code lx; current_pos := S (current_pos lx) |}.

Definition readInteger (lx : Lexer) : Token * Lexer :=
  let start_pos := current_pos lx in
  let lx' := scan_from isdigit lx in
  let value := substring start_pos (current_pos lx' - start_pos) (source_code lx') in
  (mkToken INTEGER_LITERAL value, lx').

Definition readIdentifierOrKeyword (lx : Lexer) : Token * Lexer :=
  let start_pos := current_pos lx in
  let lx' := scan_from isalnum lx in
  let value := substring start_pos (current_pos lx' - start_pos) (source_code lx') in
  if (value =? "int")%string
  then (mkToken KEYWORD_INT value, lx')
  else (mkToken IDENTIFIER value, lx').

(** [get pos src = None] is [current_pos >= source_code.length()]. *)
Definition getNextToken (lx0 : Lexer) : Token * Lexer :=
  let lx := skipWhitespace lx0 in
  match get (current_pos lx) (source_code lx) with
  | None => (mkToken END_OF_FILE "", lx)
  | Some current_char =>
      if (current_char =? "+")%char then (mkToken OPERATOR_PLUS "+", bump lx)
      else if (current_char =? "-")%char then (mkToken OPERATOR_MINUS "-", bump lx)
      else if (current_char =? "*")%char then (mkToken OPERATOR_MULTIPLY "*", bump lx)
      else if (current_char =? "/")%char then (mkToken OPERATOR_DIVIDE "/", bump lx)
      else if (current_char =? "=")%char then (mkToken OPERATOR_ASSIGN "=", bump lx)
      else if (current_char =? ";")%char then (mkToken PUNCTUATION_SEMICOLON ";", bump lx)
      else if isdigit current_char then readInteger lx
      else if isalpha current_char then readIdentifierOrKeyword lx
      else (mkToken UNKNOWN (String current_char EmptyString), bump lx)
  end.

(** [n] successive calls of [getNextToken]: the tokens they return, in
    order, and the lexer they leave behind. *)
Fixpoint nextTokens (n : nat) (lx : Lexer) : list Token * Lexer :=
  match n with
  | 0 => ([], lx)
  | S n' =>
      let (token, lx1) := getNextToken lx in
      let (rest, lx2) := nextTokens n' lx1 in
      (token :: rest, lx2)
  end.

(** The driver loop of [main]:
    [do { token = lexer.getNextToken(); tokens.push_back(token); }
     while (token.type != TokenType::END_OF_FILE);]
    [None] means the loop was still running after [fuel] iterations. *)
Fixpoint collect (fuel : nat) (lx : Lexer) : option (list Token) :=
  match fuel with
  | 0 => None
  | S fuel' =>
      let (token, lx') := getNextToken lx in
      if TokenType_eqb (type token) END_OF_FILE
      then Some [token]
      else option_map (cons token) (collect fuel' lx')
  end.

(** Every token but the last consumes a character, so [length code + 1]
    iterations suffice (proved below: [tokenize_total]). *)
Definition tokenize (code : string) : option (list Token) :=
  collect (S (length code)) (new code).

End Lexer.

(** ** The syntax tree *)

(** [NumberNode], [BinaryOpNode] and [VarDeclNode]; every
    [std::unique_ptr<AstNode>] member is an [option]. *)
#[warnings="-register-all"]
Inductive AstNode : Type :=
| NumberNode (token : Token)
| BinaryOpNode (left : option AstNode) (op : Token) (right : option AstNode)
| VarDeclNode (type_ : Token) (identifier : Token) (expression : option AstNode).

(** ** The Parser *)

Module Parser.

Record Parser : Type :=
  mkParser { tokens : list Token; current_token_idx : nat }.

(** [Parser(const std::vector<Token>& tokens)] *)
Definition new (toks : list Token) : Parser :=
  {| tokens := toks; current_token_idx := 0 |}.

(** Outcome of a parsing routine: it returns [a] and leaves the parser in
    state [p]; or it evaluated [tokens[current_token_idx]] with the index
    out of range, which is undefined behaviour in C++; or the model's loop
    bound was exhausted (never the case, see [parse_fuel]). *)
Inductive Run (A : Type) : Type :=
| Done (a : A) (p : Parser)
| OutOfBounds
| OutOfFuel.
Arguments Done {A} a p.
Arguments OutOfBounds {A}.
Arguments OutOfFuel {A}.

Definition bind {A B : Type} (m : Run A) (k : A -> Parser -> Run B) : Run B :=
  match m with
  | Done a p => k a p
  | OutOfBounds => OutOfBounds
  | OutOfFuel => OutOfFuel
  end.

Notation "'do' ( x , p ) <- m ; k" := (bind m (fun x p => k))
  (at level 10, x name, p name, m at level 100, k at level 200).

(** [Token& peek() { return tokens[current_token_idx]; }] *)
Definition peek (p : Parser) : Run Token :=
  match nth_error (tokens p) (current_token_idx p) with
  | Some t => Done t p
  | None => OutOfBounds
  end.

(** [if (current_token_idx < tokens.size()) current_token_idx++;] *)
Definition advance (p : Parser) : Parser :=
  if current_token_idx p <? List.length (tokens p)
  then {| tokens := tokens p; current_token_idx := S (current_token_idx p) |}
  else p.

Definition parseTerm (p : Parser) : Run (option AstNode) :=
  do (token, p) <- peek p;
  if TokenType_eqb (type token) INTEGER_LITERAL
  then Done (Some (NumberNode token)) (advance p)
  else Done None p.

(** The [while] loop of [parseExpression].  Its condition and the
    initialisation of [op] read [peek()] three times at one cursor; the
    model reads it once.  [std::cerr] output is not modelled. *)
Fixpoint parseExpression_loop (fuel : nat) (left : option AstNode) (p : Parser)
  : Run (option AstNode) :=
  match fuel with
  | 0 => OutOfFuel
  | S fuel' =>
      do (t, p) <- peek p;
      if TokenType_eqb (type t) OPERATOR_PLUS || TokenType_eqb (type t) OPERATOR_MINUS
      then
        let op := t in
        let p := advance p in
        do (right, p) <- parseTerm p;
        match right with
        | None => Done None p
        | Some _ => parseExpression_loop fuel' (Some (BinaryOpNode left op right)) p
        end
      else Done left p
  end.

Definition parseExpression (p : Parser) : Run (option AstNode) :=
  do (left, p) <- parseTerm p;
  parseExpression_loop (S (List.length (tokens p))) left p.

Definition parseVariableDeclaration (p : Parser) : Run (option AstNode) :=
  do (type_, p) <- peek p;
  let p := advance p in
  do (t, p) <- peek p;
  if negb (TokenType_eqb (type t) IDENTIFIER) then Done None p else
  do (identifier, p) <- peek p;
  let p := advance p in
  do (t, p) <- peek p;
  if negb (TokenType_eqb (type t) OPERATOR_ASSIGN) then Done None p else
  let p := advance p in
  do (expression, p) <- parseExpression p;
  match expression with
  | None => Done None p
  | Some _ =>
      do (t, p) <- peek p;
      if negb (TokenType_eqb (type t) PUNCTUATION_SEMICOLON) then Done None p else
      let p := advance p in
      Done (Some (VarDeclNode type_ identifier expression)) p
  end.

Definition parseStatement (p : Parser) : Run (option AstNode) :=
  do (t, p) <- peek p;
  if TokenType_eqb (type t) KEYWORD_INT
  then parseVariableDeclaration p
  else Done None p.

Definition parse (p : Parser) : Run (option AstNode) := parseStatement p.

End Parser.

(** ** The pipeline of [main]: tokenize, then parse *)

(** The tree [parse()] returns, with [None] for [nullptr]. *)
Definition result {A : Type} (r : Parser.Run A) : option A :=
  match r with
  | Parser.Done a _ => Some a
  | _ => None
  end.

Definition compile (code : string) : Parser.Run (option AstNode) :=
  match Lexer.tokenize code with
  | Some toks => Parser.parse (Parser.new toks)
  | None => Parser.OutOfFuel
  end.

(** ** Printing: [tokenTypeToString] and [printAst] *)

(** The [default] branch of the [switch] cannot be reached from a value of
    the enumeration and is left out. *)
Definition tokenTypeToString (ty : TokenType) : string :=
  match ty with
  | KEYWORD_INT => "KEYWORD_INT"
  | IDENTIFIER => "IDENTIFIER"
  | INTEGER_LITERAL => "INTEGER_LITERAL"
  | OPERATOR_PLUS => "OPERATOR_PLUS"
  | OPERATOR_MINUS => "OPERATOR_MINUS"
  | OPERATOR_MULTIPLY => "OPERATOR_MULTIPLY"
  | OPERATOR_DIVIDE => "OPERATOR_DIVIDE"
  | OPERATOR_ASSIGN => "OPERATOR_ASSIGN"
  | PUNCTUATION_SEMICOLON => "PUNCTUATION_SEMICOLON"
  | END_OF_FILE => "END_OF_FILE"
  | UNKNOWN => "UNKNOWN"
  end.

(** The newline character and [std::string(n, ' ')]. *)
Definition nl : string := String (ascii_of_nat 10) EmptyString.

Fixpoint spaces (n : nat) : string :=
  match n with
  | 0 => EmptyString
  | S n' => String " " (spaces n')
  end.

(** [printAst] writes to [std::cout]; the model returns the text written.
    [printNode] is the body for a non-null [node], [printAst] adds the
    [if (!node) return;] in front.  The source has [int indent]; [nat]
    stands for its values from 0 on, and agrees with it as long as
    [indent * 2] and [indent + 2] do not overflow (see [indent_fits]). *)
Fixpoint printNode (node : AstNode) (indent : nat) : string :=
  let indentation := spaces (indent * 2) in
  match node with
  | VarDeclNode ty id expression =>
      (indentation ++ "VarDecl: " ++ value id ++ " (" ++ value ty ++ ")" ++ nl
       ++ indentation ++ "  Value:" ++ nl
       ++ match expression with
          | Some e => printNode e (indent + 2)
          | None => ""
          end)%string
  | BinaryOpNode l op r =>
      (indentation ++ "BinaryOp: " ++ value op ++ nl
       ++ indentation ++ "  Left:" ++ nl
       ++ match l with Some a => printNode a (indent + 2) | None => "" end
       ++ indentation ++ "  Right:" ++ nl
       ++ match r with Some b => printNode b (indent + 2) | None => "" end)%string
  | NumberNode t =>
      (indentation ++ "Number: " ++ value t ++ nl)%string
  end.

Definition printAst (node : option AstNode) (indent : nat) : string :=
  match node with
  | None => ""
  | Some n => printNode n indent
  end.

(** * Specification vocabulary *)

Definition nonspace (c : ascii) : bool := negb (isspace c).

Fixpoint string_forallb (p : ascii -> bool) (s : string) : bool :=
  match s with
  | EmptyString => true
  | String c s' => p c && string_forallb p s'
  end.

Fixpoint string_filter (p : ascii -> bool) (s : string) : string :=
  match s with
  | EmptyString => EmptyString
  | String c s' => if p c then String c (string_filter p s') else string_filter p s'
  end.

Definition END_TOKEN : Token := mkToken END_OF_FILE "".

(** What one call does from cursor [pos]: it skips the whitespace in
    [pos, ws), returns as lexeme the characters in [ws, e), none of them
    whitespace, and leaves the cursor at [e].  The token is the end marker
    exactly when nothing is left. *)
Definition token_step (src : string) (pos : nat) (r : Token * Lexer.Lexer) : Prop :=
  exists ws e,
    snd r = Lexer.mkLexer src e /\
    pos <= ws /\ ws <= e /\ e <= length src /\
    (forall i, pos <= i < ws -> exists c, get i src = Some c /\ isspace c = true) /\
    value (fst r) = substring ws (e - ws) src /\
    string_forallb nonspace (value (fst r)) = true /\
    ((fst r = END_TOKEN /\ ws = length src /\ e = ws) \/
     (type (fst r) <> END_OF_FILE /\ ws < e)).

(** The lexemes of a token sequence, concatenated in order. *)
Definition lexemes (toks : list Token) : string :=
  fold_right (fun t acc => (value t ++ acc)%string) "" toks.

Definition is_sum_operator (t : Token) : bool :=
  TokenType_eqb (type t) OPERATOR_PLUS || TokenType_eqb (type t) OPERATOR_MINUS.

(** Kinds of the tokens stored in a tree (the data-model invariant). *)
Fixpoint kinds_ok (n : AstNode) : bool :=
  match n with
  | NumberNode t => TokenType_eqb (type t) INTEGER_LITERAL
  | BinaryOpNode l op r =>
      is_sum_operator op
      && match l with Some a => kinds_ok a | None => true end
      && match r with Some b => kinds_ok b | None => true end
  | VarDeclNode ty id e =>
      TokenType_eqb (type ty) KEYWORD_INT
      && TokenType_eqb (type id) IDENTIFIER
      && match e with Some a => kinds_ok a | None => true end
  end.

Definition kinds_ok_opt (o : option AstNode) : bool :=
  match o with Some a => kinds_ok a | None => true end.

(** The cursor of [p] is a valid index of [ts], the vector [p] holds. *)
Definition in_bounds (ts : list Token) (p : Parser.Parser) : Prop :=
  Parser.tokens p = ts /\ Parser.current_token_idx p < List.length ts.

(** The routine returned, having evaluated [tokens[current_token_idx]]
    at valid indices only, and left the cursor at a valid index. *)
Definition safe {A : Type} (ts : list Token) (m : Parser.Run A) : Prop :=
  exists a q, m = Parser.Done a q /\ in_bounds ts q.

Definition not_end (t : Token) : bool := negb (TokenType_eqb (type t) END_OF_FILE).

(** The tokens of [( ("+" | "-") term )*], flattened. *)
Definition operands (ops : list (Token * Token)) : list Token :=
  flat_map (fun on => [fst on; snd on]) ops.

(** The left fold [parseExpression] builds from a first term and the
    operator/term pairs that follow. *)
Fixpoint fold_ops (left : AstNode) (ops : list (Token * Token)) : AstNode :=
  match ops with
  | [] => left
  | (op, n) :: rest =>
      fold_ops (BinaryOpNode (Some left) op (Some (NumberNode n))) rest
  end.

Definition operand_ok (on : Token * Token) : bool :=
  is_sum_operator (fst on) && TokenType_eqb (type (snd on)) INTEGER_LITERAL.

(** [variable_declaration ::= "int" IDENTIFIER "=" expression ";"] as a
    token sequence, and the test that the tokens have the required kinds. *)
Definition declaration (kw id eq n0 : Token) (ops : list (Token * Token)) (semi : Token)
  : list Token :=
  (kw :: id :: eq :: n0 :: operands ops ++ [semi])%list.

Definition declaration_ok (kw id eq n0 : Token) (ops : list (Token * Token)) (semi : Token)
  : bool :=
  TokenType_eqb (type kw) KEYWORD_INT
  && TokenType_eqb (type id) IDENTIFIER
  && TokenType_eqb (type eq) OPERATOR_ASSIGN
  && TokenType_eqb (type n0) INTEGER_LITERAL
  && forallb operand_ok ops
  && TokenType_eqb (type semi) PUNCTUATION_SEMICOLON.

(** ** Vocabulary of the further properties *)

(** Kind of the token a single character gives when it is neither
    whitespace, nor a digit, nor a letter. *)
Definition single_char_kind (c : ascii) : TokenType :=
  if (c =? "+")%char then OPERATOR_PLUS
  else if (c =? "-")%char then OPERATOR_MINUS
  else if (c =? "*")%char then OPERATOR_MULTIPLY
  else if (c =? "/")%char then OPERATOR_DIVIDE
  else if (c =? "=")%char then OPERATOR_ASSIGN
  else if (c =? ";")%char then PUNCTUATION_SEMICOLON
  else UNKNOWN.

Definition starts_with_letter (s : string) : bool :=
  match s with
  | String c _ => isalpha c
  | EmptyString => false
  end.

(** A lexeme that fits the kind of its token. *)
Definition lexeme_ok (t : Token) : bool :=
  match type t with
  | KEYWORD_INT => (value t =? "int")%string
  | IDENTIFIER =>
      negb (value t =? "int")%string
      && starts_with_letter (value t) && string_forallb isalnum (value t)
  | INTEGER_LITERAL => negb (value t =? "")%string && string_forallb isdigit (value t)
  | OPERATOR_PLUS => (value t =? "+")%string
  | OPERATOR_MINUS => (value t =? "-")%string
  | OPERATOR_MULTIPLY => (value t =? "*")%string
  | OPERATOR_DIVIDE => (value t =? "/")%string
  | OPERATOR_ASSIGN => (value t =? "=")%string
  | PUNCTUATION_SEMICOLON => (value t =? ";")%string
  | END_OF_FILE => (value t =? "")%string
  | UNKNOWN =>
      match value t with
      | String c EmptyString =>
          negb (isspace c) && negb (isdigit c) && negb (isalpha c)
          && TokenType_eqb (single_char_kind c) UNKNOWN
      | _ => false
      end
  end.

(** Cursor [q] is the cursor [p] moved forward over the same tokens, and
    not beyond [tokens.size()] unless it was there already. *)
Definition forward (p q : Parser.Parser) : Prop :=
  Parser.tokens q = Parser.tokens p /\
  Parser.current_token_idx p <= Parser.current_token_idx q /\
  Parser.current_token_idx q <=
    Nat.max (Parser.current_token_idx p) (List.length (Parser.tokens p)).

(** The left fold of [parseExpression] when the first term may be null. *)
Definition fold_ops_opt (left : option AstNode) (ops : list (Token * Token))
  : option AstNode :=
  fold_left
    (fun l on => Some (BinaryOpNode l (fst on) (Some (NumberNode (snd on)))))
    ops left.

(** The tokens of an optional first term. *)
Definition first_term (first : option Token) : list Token :=
  match first with Some n => [n] | None => [] end.

(** The token sequences [parse] accepts: [int], an identifier, [=], an
    optional first literal, operator/literal pairs, [;] -- with at least a
    first literal or one pair. *)
Definition accepted (kw id eq : Token) (first : option Token)
    (ops : list (Token * Token)) (semi : Token) : list Token :=
  (kw :: id :: eq :: first_term first ++ operands ops ++ [semi])%list.

Definition accepted_ok (kw id eq : Token) (first : option Token)
    (ops : list (Token * Token)) (semi : Token) : bool :=
  TokenType_eqb (type kw) KEYWORD_INT
  && TokenType_eqb (type id) IDENTIFIER
  && TokenType_eqb (type eq) OPERATOR_ASSIGN
  && match first with
     | Some n => TokenType_eqb (type n) INTEGER_LITERAL
     | None => match ops with [] => false | _ :: _ => true end
     end
  && forallb operand_ok ops
  && TokenType_eqb (type semi) PUNCTUATION_SEMICOLON.

(** The tokens stored in a tree, left to right. *)
Fixpoint tree_tokens (n : AstNode) : list Token :=
  match n with
  | NumberNode t => [t]
  | BinaryOpNode l op r =>
      (match l with Some a => tree_tokens a | None => [] end
       ++ op :: match r with Some b => tree_tokens b | None => [] end)%list
  | VarDeclNode ty id e =>
      ty :: id :: match e with Some a => tree_tokens a | None => [] end
  end.

(** An expression tree as [parseExpression] builds it: the right child of
    a [BinaryOpNode] is a number, the left child a number, another such
    operation, or null. *)
Fixpoint left_deep (n : AstNode) : bool :=
  match n with
  | NumberNode _ => true
  | BinaryOpNode l _ r =>
      match l with Some a => left_deep a | None => true end
      && match r with Some (NumberNode _) => true | _ => false end
  | VarDeclNode _ _ _ => false
  end.

(** The number of lines [printAst] writes for a tree. *)
Fixpoint print_lines (n : AstNode) : nat :=
  match n with
  | NumberNode _ => 1
  | BinaryOpNode l _ r =>
      3 + match l with Some a => print_lines a | None => 0 end
        + match r with Some b => print_lines b | None => 0 end
  | VarDeclNode _ _ e =>
      2 + match e with Some a => print_lines a | None => 0 end
  end.

(** Occurrences of the newline character in a text. *)
Fixpoint newlines (s : string) : nat :=
  match s with
  | EmptyString => 0
  | String c s' => (if (c =? ascii_of_nat 10)%char then 1 else 0) + newlines s'
  end.

Definition tree_tokens_opt (o : option AstNode) : list Token :=
  match o with Some a => tree_tokens a | None => [] end.

Definition left_deep_opt (o : option AstNode) : bool :=
  match o with Some a => left_deep a | None => true end.

(** A lexeme without a newline character. *)
Definition one_line (t : Token) : bool := newlines (value t) =? 0.

(** The kinds of token the grammar consumes; [OPERATOR_MULTIPLY],
    [OPERATOR_DIVIDE], [UNKNOWN] and [END_OF_FILE] are not among them. *)
Definition grammar_kind (t : Token) : bool :=
  match type t with
  | KEYWORD_INT | IDENTIFIER | INTEGER_LITERAL | OPERATOR_PLUS | OPERATOR_MINUS
  | OPERATOR_ASSIGN | PUNCTUATION_SEMICOLON => true
  | OPERATOR_MULTIPLY | OPERATOR_DIVIDE | END_OF_FILE | UNKNOWN => false
  end.

(** [INT_MAX] for the 32-bit [int] of [printAst]'s [indent]. *)
Definition INT_MAX : N := 2147483647%N.

(** How much further than the root of a tree [printAst] indents: each
    level of the recursion adds 2 to [indent], for non-null children. *)
Fixpoint deepest (n : AstNode) : nat :=
  match n with
  | NumberNode _ => 0
  | BinaryOpNode l _ r =>
      Nat.max (match l with Some a => 2 + deepest a | None => 0 end)
              (match r with Some b => 2 + deepest b | None => 0 end)
  | VarDeclNode _ _ e =>
      match e with Some a => 2 + deepest a | None => 0 end
  end.

(** The [int] arithmetic of [printAst] stays in range: at every node it
    prints, [indent * 2] is at most [INT_MAX] (so [indent + 2] is too, and
    [indent] is not negative).  A null [node] computes nothing. *)
Definition indent_fits (node : option AstNode) (indent : nat) : bool :=
  match node with
  | None => true
  | Some n => (N.of_nat (2 * (indent + deepest n)) <=? INT_MAX)%N
  end.

(** * Properties *)

(** ** Character classes *)

Lemma isdigit_nonspace c : isdigit c = true -> nonspace c = true.
Proof.
  unfold isdigit, nonspace, isspace.
  destruct (Nat.eqb_spec (nat_of_ascii c) 32);
    destruct (Nat.leb_spec 9 (nat_of_ascii c));
    destruct (Nat.leb_spec (nat_of_ascii c) 13);
    destruct (Nat.leb_spec 48 (nat_of_ascii c));
    destruct (Nat.leb_spec (nat_of_ascii c) 57); simpl; try reflexivity;
    intros; try discriminate; lia.
Qed.

Lemma isalpha_nonspace c : isalpha c = true -> nonspace c = true.
Proof.
  unfold isalpha, nonspace, isspace.
  destruct (Nat.eqb_spec (nat_of_ascii c) 32);
    destruct (Nat.leb_spec 9 (nat_of_ascii c));
    destruct (Nat.leb_spec (nat_of_ascii c) 13);
    destruct (Nat.leb_spec 65 (nat_of_ascii c));
    destruct (Nat.leb_spec (nat_of_ascii c) 90);
    destruct (Nat.leb_spec 97 (nat_of_ascii c));
    destruct (Nat.leb_spec (nat_of_ascii c) 122); simpl; try reflexivity;
    intros; try discriminate; lia.
Qed.

Lemma isalnum_nonspace c : isalnum c = true -> nonspace c = true.
Proof.
  unfold isalnum. intros H. apply orb_true_iff in H.
  destruct H; auto using isdigit_nonspace, isalpha_nonspace.
Qed.

(** ** Strings: [get], [substring], filtering *)

Lemma get_None s : forall n, get n s = None <-> length s <= n.
Proof.
  induction s as [|c s IH]; intros [|n]; simpl; split; intros H;
    try reflexivity; try discriminate; try lia.
  - apply IH in H. lia.
  - apply IH. lia.
Qed.

Lemma get_Some_lt s n c : get n s = Some c -> n < length s.
Proof.
  intros H. destruct (Nat.lt_ge_cases n (length s)) as [|Hge]; [assumption|].
  apply get_None in Hge. congruence.
Qed.

Lemma substring_one s : forall n c, get n s = Some c -> substring n 1 s = String c "".
Proof.
  induction s as [|a s IH]; intros [|n] c; simpl; try discriminate.
  - intros [= ->]. destruct s; reflexivity.
  - apply IH.
Qed.

Lemma substring_zero s : forall n, substring n 0 s = "".
Proof. induction s as [|a s IH]; intros [|n]; simpl; auto. Qed.

Lemma substring_split s : forall n a b,
  substring n (a + b) s = (substring n a s ++ substring (n + a) b s)%string.
Proof.
  induction s as [|c s IH]; intros n a b.
  - destruct n, a, b; reflexivity.
  - destruct n as [|n].
    + destruct a as [|a]; simpl.
      * reflexivity.
      * f_equal. apply (IH 0).
    + simpl. apply IH.
Qed.

Lemma substring_full s : substring 0 (length s) s = s.
Proof. induction s as [|c s IH]; simpl; congruence. Qed.

Lemma string_forallb_substring p s : forall n m,
  (forall i, n <= i < n + m -> exists c, get i s = Some c /\ p c = true) ->
  string_forallb p (substring n m s) = true.
Proof.
  induction s as [|c s IH]; intros n m H.
  - destruct m as [|m]; [rewrite substring_zero; reflexivity|].
    destruct (H n) as (d & Hd & _); [lia|]. destruct n; discriminate.
  - destruct n as [|n].
    + destruct m as [|m]; simpl; [reflexivity|].
      destruct (H 0) as (d & Hd & Hp); [lia|]. simpl in Hd. injection Hd as ->.
      rewrite Hp. simpl. apply IH. intros i Hi.
      destruct (H (S i)) as (e & He & Hpe); [lia|]. exists e. auto.
    + simpl. apply IH. intros i Hi.
      destruct (H (S i)) as (e & He & Hpe); [lia|]. exists e. auto.
Qed.

Lemma string_filter_app p s t :
  string_filter p (s ++ t) = (string_filter p s ++ string_filter p t)%string.
Proof.
  induction s as [|c s IH]; simpl; [reflexivity|].
  destruct (p c); simpl; congruence.
Qed.

Lemma string_filter_all p s : string_forallb p s = true -> string_filter p s = s.
Proof.
  induction s as [|c s IH]; simpl; [reflexivity|].
  intros H. apply andb_true_iff in H as [-> H]. f_equal. auto.
Qed.

Lemma string_filter_none p s :
  string_forallb (fun c => negb (p c)) s = true -> string_filter p s = "".
Proof.
  induction s as [|c s IH]; simpl; [reflexivity|].
  intros H. apply andb_true_iff in H as [Hc H].
  apply negb_true_iff in Hc. rewrite Hc. auto.
Qed.

(** ** The scanning loop *)

(** With [length src - pos] iterations allowed the loop stops because its
    condition is false, never because the bound was reached: at the final
    cursor [e] either [e >= length src] or the character at [e] fails [p]. *)
Lemma scan_exit p src : forall fuel pos,
  length src - pos <= fuel ->
  let e := Lexer.scan p src pos fuel in
  pos <= e /\
  (pos <= length src -> e <= length src) /\
  (forall i, pos <= i < e -> exists c, get i src = Some c /\ p c = true) /\
  (forall c, get e src = Some c -> p c = false).
Proof.
  induction fuel as [|fuel IH]; intros pos Hfuel; simpl.
  - repeat split; try lia.
    intros c Hc. apply get_Some_lt in Hc. lia.
  - destruct (get pos src) as [c|] eqn:Hget.
    + destruct (p c) eqn:Hp.
      * destruct (IH (S pos)) as (H1 & H2 & H3 & H4); [lia|].
        pose proof (get_Some_lt _ _ _ Hget).
        repeat split; try lia; [|assumption].
        intros i Hi. destruct (Nat.eq_dec i pos) as [->|Hne].
        -- exists c. auto.
        -- apply H3. lia.
      * repeat split; try lia. intros d Hd. congruence.
    + repeat split; try lia. intros d Hd. congruence.
Qed.

Lemma scan_progress p src pos c :
  get pos src = Some c -> p c = true ->
  pos < Lexer.scan p src pos (length src - pos).
Proof.
  intros Hget Hp. pose proof (get_Some_lt _ _ _ Hget) as Hlt.
  destruct (length src - pos) as [|fuel] eqn:Hf; [lia|].
  simpl. rewrite Hget, Hp.
  destruct (scan_exit p src fuel (S pos)) as (H & _); lia.
Qed.

(** ** One call of [getNextToken] *)

Lemma run_token src ws p c :
  get ws src = Some c -> p c = true -> (forall d, p d = true -> nonspace d = true) ->
  let e := Lexer.scan p src ws (length src - ws) in
  ws < e /\ e <= length src /\
  string_forallb nonspace (substring ws (e - ws) src) = true.
Proof.
  intros Hget Hp Hns e.
  pose proof (get_Some_lt _ _ _ Hget) as Hlt.
  pose proof (scan_progress p src ws c Hget Hp) as Hprog.
  destruct (scan_exit p src (length src - ws) ws) as (H1 & H2 & H3 & H4); [lia|].
  fold e in Hprog, H1, H2, H3, H4.
  repeat split; try lia.
  apply string_forallb_substring. intros i Hi.
  destruct (H3 i) as (d & Hd & Hpd); [lia|]. exists d. auto.
Qed.

Lemma getNextToken_step src pos :
  pos <= length src ->
  token_step src pos (Lexer.getNextToken (Lexer.mkLexer src pos)).
Proof.
  intros Hpos. unfold Lexer.getNextToken, Lexer.skipWhitespace, Lexer.scan_from.
  cbn [Lexer.source_code Lexer.current_pos].
  destruct (scan_exit isspace src (length src - pos) pos) as (H1 & H2 & H3 & H4); [lia|].
  set (ws := Lexer.scan isspace src pos (length src - pos)) in *.
  specialize (H2 Hpos).
  destruct (get ws src) as [c|] eqn:Hget.
  - pose proof (get_Some_lt _ _ _ Hget) as Hlt.
    assert (Hc : nonspace c = true) by (unfold nonspace; rewrite (H4 c eq_refl); reflexivity).
    assert (Hone : forall tok,
               value tok = String c "" -> type tok <> END_OF_FILE ->
               token_step src pos (tok, Lexer.bump (Lexer.mkLexer src ws))).
    { intros tok Hv Hty. exists ws, (S ws). cbn [fst snd Lexer.bump Lexer.source_code Lexer.current_pos].
      repeat split; try lia; try assumption.
      - rewrite Hv. replace (S ws - ws) with 1 by lia. symmetry. apply substring_one, Hget.
      - rewrite Hv. simpl. rewrite Hc. reflexivity.
      - right. split; [assumption | lia]. }
    destruct (Ascii.eqb_spec c "+") as [->|_]; [apply Hone; [reflexivity|discriminate]|].
    destruct (Ascii.eqb_spec c "-") as [->|_]; [apply Hone; [reflexivity|discriminate]|].
    destruct (Ascii.eqb_spec c "*") as [->|_]; [apply Hone; [reflexivity|discriminate]|].
    destruct (Ascii.eqb_spec c "/") as [->|_]; [apply Hone; [reflexivity|discriminate]|].
    destruct (Ascii.eqb_spec c "=") as [->|_]; [apply Hone; [reflexivity|discriminate]|].
    destruct (Ascii.eqb_spec c ";") as [->|_]; [apply Hone; [reflexivity|discriminate]|].
    destruct (isdigit c) eqn:Hdig.
    { unfold Lexer.readInteger, Lexer.scan_from. cbn [Lexer.source_code Lexer.current_pos].
      destruct (run_token src ws isdigit c Hget Hdig isdigit_nonspace)
        as (Ha & Hb & Hc').
      eexists ws, _. cbn [fst snd type value].
      repeat split; try eassumption; try lia.
      right. split; [discriminate | assumption]. }
    destruct (isalpha c) eqn:Halpha.
    { unfold Lexer.readIdentifierOrKeyword, Lexer.scan_from.
      cbn [Lexer.source_code Lexer.current_pos].
      assert (Hal : isalnum c = true) by (unfold isalnum; rewrite Halpha; reflexivity).
      destruct (run_token src ws isalnum c Hget Hal isalnum_nonspace)
        as (Ha & Hb & Hc').
      destruct (_ =? "int")%string;
        (eexists ws, _; cbn [fst snd type value];
         repeat split; try eassumption; try lia;
         right; split; [discriminate | assumption]). }
    apply Hone; [reflexivity | discriminate].
  - apply get_None in Hget. exists ws, ws. cbn [fst snd type value].
    repeat split; try lia; try assumption.
    + rewrite Nat.sub_diag, substring_zero. reflexivity.
    + left. repeat split; lia.
Qed.

(** ** The token stream *)

Lemma lexemes_app ts us : lexemes (ts ++ us) = (lexemes ts ++ lexemes us)%string.
Proof.
  induction ts as [|t ts IH]; simpl; [reflexivity|].
  rewrite IH. clear IH. induction (value t); simpl; congruence.
Qed.

Lemma append_empty_r s : (s ++ "")%string = s.
Proof. induction s; simpl; congruence. Qed.

Lemma filter_token_step src pos ws e :
  pos <= ws -> ws <= e -> e <= length src ->
  (forall i, pos <= i < ws -> exists c, get i src = Some c /\ isspace c = true) ->
  string_forallb nonspace (substring ws (e - ws) src) = true ->
  string_filter nonspace (substring pos (length src - pos) src) =
  (substring ws (e - ws) src
     ++ string_filter nonspace (substring e (length src - e) src))%string.
Proof.
  intros H1 H2 H3 Hws Hns.
  replace (length src - pos) with ((ws - pos) + ((e - ws) + (length src - e))) by lia.
  rewrite !substring_split, !string_filter_app.
  replace (pos + (ws - pos)) with ws by lia.
  replace (ws + (e - ws)) with e by lia.
  rewrite (string_filter_none nonspace (substring pos (ws - pos) src)).
  - simpl. rewrite (string_filter_all _ _ Hns). reflexivity.
  - apply string_forallb_substring. intros i Hi.
    destruct (Hws i) as (c & Hc & Hsp); [lia|].
    exists c. unfold nonspace. rewrite Hsp. auto.
Qed.

Lemma getNextToken_at_end src :
  Lexer.getNextToken (Lexer.mkLexer src (length src)) =
  (END_TOKEN, Lexer.mkLexer src (length src)).
Proof.
  destruct (getNextToken_step src (length src) (le_n _))
    as (ws & e & Hs & H1 & H2 & H3 & _ & _ & _ & [(Ht & Hw & He) | (_ & Hlt)]); [|lia].
  destruct (Lexer.getNextToken _) as [t lx]; simpl in *. subst. reflexivity.
Qed.

Lemma nextTokens_at_end src k :
  Lexer.nextTokens k (Lexer.mkLexer src (length src)) =
  (repeat END_TOKEN k, Lexer.mkLexer src (length src)).
Proof.
  induction k as [|k IH]; simpl; [reflexivity|].
  rewrite getNextToken_at_end, IH. reflexivity.
Qed.

Lemma nextTokens_after_end src lx k :
  Lexer.getNextToken lx = (END_TOKEN, Lexer.mkLexer src (length src)) ->
  fst (Lexer.nextTokens k lx) = repeat END_TOKEN k.
Proof.
  intros H. destruct k as [|k]; simpl; [reflexivity|].
  rewrite H, nextTokens_at_end. reflexivity.
Qed.

(** From any cursor the lexer produces finitely many proper tokens [toks],
    at most one per remaining character, and then the end marker.  Their
    lexemes are the remaining characters without the whitespace, and the
    driver loop collects [toks ++ [END_TOKEN]] as soon as it is allowed
    one more iteration than there are proper tokens. *)
Lemma token_stream src : forall n pos,
  length src - pos <= n -> pos <= length src ->
  exists toks lx_end,
    Lexer.nextTokens (List.length toks) (Lexer.mkLexer src pos) = (toks, lx_end) /\
    List.length toks <= length src - pos /\
    Forall (fun t => type t <> END_OF_FILE) toks /\
    Lexer.getNextToken lx_end = (END_TOKEN, Lexer.mkLexer src (length src)) /\
    lexemes toks = string_filter nonspace (substring pos (length src - pos) src) /\
    (forall fuel, List.length toks < fuel ->
       Lexer.collect fuel (Lexer.mkLexer src pos) = Some (toks ++ [END_TOKEN])%list).
Proof.
  induction n as [|n IH]; intros pos Hn Hpos;
    pose proof (getNextToken_step src pos Hpos) as Hstep;
    destruct Hstep as (ws & e & Hs & H1 & H2 & H3 & Hws & Hv & Hns & Hcase);
    destruct (Lexer.getNextToken (Lexer.mkLexer src pos)) as [tok lx1] eqn:Hg;
    cbn [fst snd] in *; subst lx1.
  1: destruct Hcase as [(Ht & Hw & He) | (_ & Hlt)]; [|lia].
  2: destruct Hcase as [(Ht & Hw & He) | (Hty & Hlt)].
  1,2: (exists [], (Lexer.mkLexer src pos); subst tok ws e; cbn [List.length lexemes fold_right];
        repeat split; try lia; [constructor | assumption | |]);
       [ rewrite (filter_token_step src pos (length src) (length src)); try lia; try assumption;
         rewrite !Nat.sub_diag, !substring_zero; reflexivity
       | intros [|fuel] Hf; [lia|]; simpl; rewrite Hg; reflexivity ].
  destruct (IH e) as (toks & lx_end & Hnt & Hlen & Hall & Hend & Hlex & Hcol); [lia | lia |].
  exists (tok :: toks), lx_end. cbn [List.length lexemes fold_right].
  repeat split.
  - simpl. rewrite Hg, Hnt. reflexivity.
  - lia.
  - constructor; assumption.
  - assumption.
  - fold (lexemes toks). rewrite Hlex, Hv.
    symmetry. apply filter_token_step; try assumption. rewrite <- Hv. assumption.
  - intros [|fuel] Hf; [lia|]. simpl. rewrite Hg.
    unfold TokenType_eqb. destruct (TokenType_eq_dec (type tok) END_OF_FILE); [contradiction|].
    rewrite Hcol by lia. reflexivity.
Qed.

(** The driver loop always terminates within its bound. *)
Lemma tokenize_total src :
  exists toks,
    Lexer.tokenize src = Some (toks ++ [END_TOKEN])%list /\
    Forall (fun t => type t <> END_OF_FILE) toks /\
    lexemes toks = string_filter nonspace src.
Proof.
  destruct (token_stream src (length src) 0) as (toks & lx & _ & Hlen & Hall & _ & Hlex & Hcol);
    [lia | lia |].
  exists toks. rewrite Nat.sub_0_r, substring_full in Hlex.
  repeat split; try assumption.
  apply Hcol. lia.
Qed.

(** C7 (tokenizer totality).  For every source string there is a number
    [n <= length src] such that the first [n] calls of [getNextToken] return
    tokens other than the end marker, every later call returns the
    [END_OF_FILE] token with the empty lexeme, and the lexemes of the [n]
    tokens, in order, are exactly the characters of the source that are not
    whitespace: no such character is dropped and none is returned twice.
    The driver loop of [main] therefore ends, with these tokens followed by
    the end marker.  The empty string and all-whitespace strings are
    included ([n = 0]). *)
Theorem tokenizer_totality (src : string) :
  exists n toks lx,
    n <= length src /\
    Lexer.nextTokens n (Lexer.new src) = (toks, lx) /\
    Forall (fun t => type t <> END_OF_FILE) toks /\
    (forall k, fst (Lexer.nextTokens k lx) = repeat END_TOKEN k) /\
    lexemes toks = string_filter nonspace src /\
    Lexer.tokenize src = Some (toks ++ [END_TOKEN])%list.
Proof.
  destruct (token_stream src (length src) 0) as (toks & lx & Hnt & Hlen & Hall & Hend & Hlex & Hcol);
    [lia | lia |].
  rewrite Nat.sub_0_r in *. rewrite substring_full in Hlex.
  exists (List.length toks), toks, lx. repeat split; try assumption.
  - intros k. eapply nextTokens_after_end, Hend.
  - apply Hcol. lia.
Qed.

(** C5 (round trip).  If the source contains no whitespace character, the
    driver loop returns a token sequence (everything up to and including the
    first [END_OF_FILE] token) whose lexemes concatenate to the source. *)
Theorem round_trip_no_whitespace (src : string) :
  string_forallb nonspace src = true ->
  exists toks,
    Lexer.tokenize src = Some (toks ++ [END_TOKEN])%list /\
    Forall (fun t => type t <> END_OF_FILE) toks /\
    lexemes (toks ++ [END_TOKEN]) = src.
Proof.
  intros Hns. destruct (tokenize_total src) as (toks & Htok & Hall & Hlex).
  exists toks. repeat split; try assumption.
  rewrite lexemes_app, Hlex, (string_filter_all _ _ Hns). simpl.
  apply append_empty_r.
Qed.

Lemma round_trip_no_whitespace_witness :
  exists toks,
    Lexer.tokenize "int2=x+@7;" = Some (toks ++ [END_TOKEN])%list /\
    Forall (fun t => type t <> END_OF_FILE) toks /\
    lexemes (toks ++ [END_TOKEN]) = "int2=x+@7;".
Proof. apply (round_trip_no_whitespace "int2=x+@7;"). reflexivity. Defined.

(** ** Keywords *)

Lemma isalpha_not_digit c : isalpha c = true -> isdigit c = false.
Proof.
  unfold isalpha, isdigit.
  destruct (Nat.leb_spec 48 (nat_of_ascii c));
    destruct (Nat.leb_spec (nat_of_ascii c) 57);
    destruct (Nat.leb_spec 65 (nat_of_ascii c));
    destruct (Nat.leb_spec (nat_of_ascii c) 90);
    destruct (Nat.leb_spec 97 (nat_of_ascii c));
    destruct (Nat.leb_spec (nat_of_ascii c) 122); simpl; try reflexivity;
    intros; try discriminate; lia.
Qed.

Lemma skip_nothing src pos c :
  get pos src = Some c -> isspace c = false ->
  Lexer.skipWhitespace (Lexer.mkLexer src pos) = Lexer.mkLexer src pos.
Proof.
  intros Hget Hsp. unfold Lexer.skipWhitespace, Lexer.scan_from. simpl.
  pose proof (get_Some_lt _ _ _ Hget).
  destruct (length src - pos) eqn:Hf; [lia|]. simpl. rewrite Hget, Hsp. reflexivity.
Qed.

(** Whitespace in front of the cursor is passed over: the call gives what
    it gives from the first character that is not whitespace. *)
Lemma scan_prefix p src : forall d pos,
  pos + d <= length src ->
  (forall i, pos <= i < pos + d -> exists c, get i src = Some c /\ p c = true) ->
  Lexer.scan p src pos (length src - pos) =
  Lexer.scan p src (pos + d) (length src - (pos + d)).
Proof.
  induction d as [|d IH]; intros pos Hlen Hall.
  - rewrite Nat.add_0_r. reflexivity.
  - destruct (Hall pos) as (c & Hget & Hp); [lia|].
    replace (length src - pos) with (S (length src - S pos)) by lia.
    simpl. rewrite Hget, Hp.
    replace (pos + S d) with (S pos + d) by lia.
    apply IH; [lia|]. intros i Hi. apply Hall. lia.
Qed.

Lemma getNextToken_skip src pos ws :
  pos <= ws -> ws <= length src ->
  (forall i, pos <= i < ws -> exists c, get i src = Some c /\ isspace c = true) ->
  Lexer.getNextToken (Lexer.mkLexer src pos) = Lexer.getNextToken (Lexer.mkLexer src ws).
Proof.
  intros Hle Hlen Hall. unfold Lexer.getNextToken, Lexer.skipWhitespace, Lexer.scan_from.
  cbn [Lexer.source_code Lexer.current_pos].
  replace ws with (pos + (ws - pos)) by lia.
  rewrite <- (scan_prefix isspace src (ws - pos) pos); [reflexivity | lia |].
  intros i Hi. apply Hall. lia.
Qed.

(** C6 (keyword exactness).  Whenever the tokenizer scans a run that starts
    with a letter -- the cursor is on the letter, or whitespace lies between
    the cursor and the letter -- [getNextToken] returns as lexeme the maximal
    run of alphanumeric characters that starts at the letter, with kind
    [KEYWORD_INT] if that lexeme is exactly ["int"] and kind [IDENTIFIER]
    for every other lexeme. *)
Theorem keyword_exactness (src : string) (pos ws : nat) (c : ascii) :
  pos <= ws ->
  (forall i, pos <= i < ws -> exists d, get i src = Some d /\ isspace d = true) ->
  get ws src = Some c -> isalpha c = true ->
  exists e tok,
    Lexer.getNextToken (Lexer.mkLexer src pos) = (tok, Lexer.mkLexer src e) /\
    ws < e /\ e <= length src /\
    value tok = substring ws (e - ws) src /\
    (forall i, ws <= i < e -> exists d, get i src = Some d /\ isalnum d = true) /\
    (forall d, get e src = Some d -> isalnum d = false) /\
    (value tok = "int" -> type tok = KEYWORD_INT) /\
    (value tok <> "int" -> type tok = IDENTIFIER).
Proof.
  intros Hle Hws Hget Halpha.
  pose proof (get_Some_lt _ _ _ Hget) as Hlt.
  rewrite (getNextToken_skip src pos ws) by (assumption || lia).
  assert (Hsp : isspace c = false).
  { apply isalpha_nonspace in Halpha. unfold nonspace in Halpha.
    apply negb_true_iff. assumption. }
  assert (Hal : isalnum c = true) by (unfold isalnum; rewrite Halpha; reflexivity).
  unfold Lexer.getNextToken. rewrite (skip_nothing src ws c Hget Hsp).
  cbn [Lexer.source_code Lexer.current_pos]. rewrite Hget.
  destruct (Ascii.eqb_spec c "+") as [->|_]; [discriminate Halpha|].
  destruct (Ascii.eqb_spec c "-") as [->|_]; [discriminate Halpha|].
  destruct (Ascii.eqb_spec c "*") as [->|_]; [discriminate Halpha|].
  destruct (Ascii.eqb_spec c "/") as [->|_]; [discriminate Halpha|].
  destruct (Ascii.eqb_spec c "=") as [->|_]; [discriminate Halpha|].
  destruct (Ascii.eqb_spec c ";") as [->|_]; [discriminate Halpha|].
  rewrite (isalpha_not_digit c Halpha), Halpha.
  unfold Lexer.readIdentifierOrKeyword, Lexer.scan_from.
  cbn [Lexer.source_code Lexer.current_pos].
  pose proof (scan_progress isalnum src ws c Hget Hal) as Hprog.
  destruct (scan_exit isalnum src (length src - ws) ws) as (H1 & H2 & H3 & H4); [lia|].
  set (e := Lexer.scan isalnum src ws (length src - ws)) in *.
  destruct (String.eqb_spec (substring ws (e - ws) src) "int") as [Heq|Hne].
  - exists e, (mkToken KEYWORD_INT (substring ws (e - ws) src)). cbn [type value].
    repeat split; try assumption; try lia. intros Hne. contradiction.
  - exists e, (mkToken IDENTIFIER (substring ws (e - ws) src)). cbn [type value].
    repeat split; try assumption; try lia. intros Heq. contradiction.
Qed.

Lemma keyword_exactness_witness :
  exists e tok,
    Lexer.getNextToken (Lexer.mkLexer "int  int2 = 1;" 3)
    = (tok, Lexer.mkLexer "int  int2 = 1;" e) /\
    5 < e /\ e <= length "int  int2 = 1;" /\
    value tok = substring 5 (e - 5) "int  int2 = 1;" /\
    (forall i, 5 <= i < e ->
               exists d, get i "int  int2 = 1;" = Some d /\ isalnum d = true) /\
    (forall d, get e "int  int2 = 1;" = Some d -> isalnum d = false) /\
    (value tok = "int" -> type tok = KEYWORD_INT) /\
    (value tok <> "int" -> type tok = IDENTIFIER).
Proof.
  apply (keyword_exactness "int  int2 = 1;" 3 5 "i").
  - lia.
  - intros i Hi. assert (i = 3 \/ i = 4) as [-> | ->] by lia; eexists; split; reflexivity.
  - reflexivity.
  - reflexivity.
Defined.

(** The same behind whitespace: the blanks are in no lexeme, and [int]
    is the keyword wherever it stands alone. *)
Example keyword_after_whitespace :
  Lexer.tokenize "int x = int" =
  Some [mkToken KEYWORD_INT "int"; mkToken IDENTIFIER "x"; mkToken OPERATOR_ASSIGN "=";
        mkToken KEYWORD_INT "int"; END_TOKEN] /\
  Lexer.tokenize " int2  Int integer" =
  Some [mkToken IDENTIFIER "int2"; mkToken IDENTIFIER "Int"; mkToken IDENTIFIER "integer";
        END_TOKEN].
Proof. split; reflexivity. Qed.

(** Only the lexeme [int] is the keyword. *)
Example keyword_examples :
  map Lexer.tokenize ["int"; "int2"; "Int"; "integer"] =
  [ Some [mkToken KEYWORD_INT "int"; END_TOKEN];
    Some [mkToken IDENTIFIER "int2"; END_TOKEN];
    Some [mkToken IDENTIFIER "Int"; END_TOKEN];
    Some [mkToken IDENTIFIER "integer"; END_TOKEN] ].
Proof. reflexivity. Qed.

(** ** The parser: basic facts *)

Lemma TokenType_eqb_eq a b : TokenType_eqb a b = true <-> a = b.
Proof.
  unfold TokenType_eqb. destruct (TokenType_eq_dec a b); split; congruence.
Qed.

Lemma TokenType_eqb_refl a : TokenType_eqb a a = true.
Proof. apply TokenType_eqb_eq. reflexivity. Qed.

Lemma TokenType_eqb_neq a b : TokenType_eqb a b = false <-> a <> b.
Proof.
  unfold TokenType_eqb. destruct (TokenType_eq_dec a b); split; congruence.
Qed.

Lemma peek_Done p t q :
  Parser.peek p = Parser.Done t q ->
  q = p /\ nth_error (Parser.tokens p) (Parser.current_token_idx p) = Some t.
Proof.
  unfold Parser.peek. destruct (nth_error _ _); [|discriminate].
  intros [= -> ->]. auto.
Qed.

Lemma peek_at ts i t :
  nth_error ts i = Some t ->
  Parser.peek (Parser.mkParser ts i) = Parser.Done t (Parser.mkParser ts i).
Proof. unfold Parser.peek. simpl. intros ->. reflexivity. Qed.

(** What [advance] does: one step forward from every index below
    [tokens.size()], the last valid index included, and nothing at
    [tokens.size()] or beyond. *)
Lemma advance_spec ts i :
  Parser.advance (Parser.mkParser ts i) =
  Parser.mkParser ts (if i <? List.length ts then S i else i).
Proof. unfold Parser.advance. simpl. destruct (i <? List.length ts); reflexivity. Qed.

Lemma advance_lt ts i :
  i < List.length ts ->
  Parser.advance (Parser.mkParser ts i) = Parser.mkParser ts (S i).
Proof. intros H. rewrite advance_spec. apply Nat.ltb_lt in H. rewrite H. reflexivity. Qed.

Lemma parseTerm_Done ts i r q :
  Parser.parseTerm (Parser.mkParser ts i) = Parser.Done r q ->
  exists t, nth_error ts i = Some t /\
    ((type t = INTEGER_LITERAL /\ r = Some (NumberNode t) /\ q = Parser.mkParser ts (S i)) \/
     (type t <> INTEGER_LITERAL /\ r = None /\ q = Parser.mkParser ts i)).
Proof.
  unfold Parser.parseTerm, Parser.bind, Parser.peek. simpl.
  destruct (nth_error ts i) as [t|] eqn:Hn; [|discriminate].
  exists t. split; [reflexivity|].
  destruct (TokenType_eqb (type t) INTEGER_LITERAL) eqn:Hty.
  - apply TokenType_eqb_eq in Hty. left.
    rewrite advance_lt in H by (apply nth_error_Some; congruence).
    injection H as <- <-. auto.
  - apply TokenType_eqb_neq in Hty. right. injection H as <- <-. auto.
Qed.

(** ** The loop bound of [parseExpression] is never reached *)

Lemma bind_Done {A B} (m : Parser.Run A) (k : A -> Parser.Parser -> Parser.Run B) b q :
  Parser.bind m k = Parser.Done b q ->
  exists a p, m = Parser.Done a p /\ k a p = Parser.Done b q.
Proof. destruct m as [a p| |]; simpl; [eauto | discriminate | discriminate]. Qed.

Lemma bind_fuel {A B} (m : Parser.Run A) (k : A -> Parser.Parser -> Parser.Run B) :
  m <> Parser.OutOfFuel ->
  (forall a p, m = Parser.Done a p -> k a p <> Parser.OutOfFuel) ->
  Parser.bind m k <> Parser.OutOfFuel.
Proof. destruct m as [a p| |]; simpl; [auto | discriminate | contradiction]. Qed.

Lemma peek_fuel p : Parser.peek p <> Parser.OutOfFuel.
Proof. unfold Parser.peek. destruct (nth_error _ _); discriminate. Qed.

Lemma parseTerm_fuel p : Parser.parseTerm p <> Parser.OutOfFuel.
Proof.
  unfold Parser.parseTerm. apply bind_fuel; [apply peek_fuel|].
  intros t q _. destruct (TokenType_eqb _ _); discriminate.
Qed.

Lemma parseExpression_loop_fuel : forall fuel left ts i,
  List.length ts - i < fuel ->
  Parser.parseExpression_loop fuel left (Parser.mkParser ts i) <> Parser.OutOfFuel.
Proof.
  induction fuel as [|fuel IH]; intros left ts i Hf; [lia|].
  cbn [Parser.parseExpression_loop].
  apply bind_fuel; [apply peek_fuel|]. intros t q Hpeek.
  apply peek_Done in Hpeek as [-> Hn]. simpl in Hn.
  assert (Hi : i < List.length ts) by (apply nth_error_Some; congruence).
  destruct (_ || _); [|discriminate]. cbv zeta.
  rewrite advance_lt by assumption.
  apply bind_fuel; [apply parseTerm_fuel|]. intros r q Hterm.
  apply parseTerm_Done in Hterm as (u & Hu & [(_ & -> & ->) | (_ & -> & ->)]);
    [|discriminate].
  apply IH. lia.
Qed.

Lemma parseExpression_fuel p : Parser.parseExpression p <> Parser.OutOfFuel.
Proof.
  destruct p as [ts i]. unfold Parser.parseExpression.
  apply bind_fuel; [apply parseTerm_fuel|]. intros r q Hterm.
  apply parseTerm_Done in Hterm as (u & Hu & [(_ & -> & ->) | (_ & -> & ->)]);
    apply parseExpression_loop_fuel; simpl; lia.
Qed.

Ltac fuel_step :=
  cbv zeta;
  first
    [ discriminate
    | apply bind_fuel;
      [ first [apply peek_fuel | apply parseTerm_fuel | apply parseExpression_fuel]
      | intros ? ? _ ]
    | match goal with
      | |- (if ?c then _ else _) <> _ => destruct c
      | |- match ?e with Some _ => _ | None => _ end <> _ => destruct e
      end ].

Lemma parseVariableDeclaration_fuel p :
  Parser.parseVariableDeclaration p <> Parser.OutOfFuel.
Proof. unfold Parser.parseVariableDeclaration. repeat fuel_step. Qed.

(** [parse] on any token sequence ends with a returned value or with an
    out-of-range [tokens[current_token_idx]]; the bound of the model's loop
    plays no part. *)
Lemma parse_fuel p : Parser.parse p <> Parser.OutOfFuel.
Proof.
  unfold Parser.parse, Parser.parseStatement.
  apply bind_fuel; [apply peek_fuel|]. intros t q _.
  destruct (TokenType_eqb _ _); [apply parseVariableDeclaration_fuel | discriminate].
Qed.

(** ** Token kinds in the returned tree *)

Lemma parseTerm_kinds p n q :
  Parser.parseTerm p = Parser.Done (Some n) q -> kinds_ok n = true.
Proof.
  destruct p as [ts i]. intros H.
  apply parseTerm_Done in H as (t & _ & [(Hty & [= ->] & _) | (_ & [=] & _)]).
  simpl. apply TokenType_eqb_eq, Hty.
Qed.

Lemma parseExpression_loop_kinds : forall fuel left p n q,
  kinds_ok_opt left = true ->
  Parser.parseExpression_loop fuel left p = Parser.Done (Some n) q ->
  kinds_ok n = true.
Proof.
  induction fuel as [|fuel IH]; intros left p n q Hleft H; [discriminate|].
  cbn [Parser.parseExpression_loop] in H.
  apply bind_Done in H as (t & p1 & _ & H).
  destruct (TokenType_eqb (type t) OPERATOR_PLUS || TokenType_eqb (type t) OPERATOR_MINUS)
    eqn:Hop.
  - cbv zeta in H. apply bind_Done in H as (r & p2 & Hterm & H).
    destruct r as [b|]; [|discriminate].
    eapply IH; [|exact H].
    apply parseTerm_kinds in Hterm. cbn [kinds_ok_opt kinds_ok].
    unfold is_sum_operator. rewrite Hop, Hterm.
    fold (kinds_ok_opt left). rewrite Hleft. reflexivity.
  - injection H as -> _. exact Hleft.
Qed.

Lemma parseExpression_kinds p n q :
  Parser.parseExpression p = Parser.Done (Some n) q -> kinds_ok n = true.
Proof.
  unfold Parser.parseExpression. intros H.
  apply bind_Done in H as (left & p1 & Hterm & H).
  eapply parseExpression_loop_kinds; [|exact H].
  destruct left as [a|]; [|reflexivity]. eapply parseTerm_kinds, Hterm.
Qed.

(** C8 (tree invariant).  Whatever the token sequence, a tree returned by
    [parse] has, at every node, an operator token of kind [OPERATOR_PLUS] or
    [OPERATOR_MINUS] in a [BinaryOpNode], a type token of kind
    [KEYWORD_INT] and an identifier token of kind [IDENTIFIER] in a
    [VarDeclNode], and a token of kind [INTEGER_LITERAL] in a
    [NumberNode]. *)
Theorem parse_kinds (ts : list Token) (n : AstNode) (q : Parser.Parser) :
  Parser.parse (Parser.new ts) = Parser.Done (Some n) q -> kinds_ok n = true.
Proof.
  unfold Parser.parse, Parser.parseStatement. intros H.
  apply bind_Done in H as (t0 & p0 & H0 & H). apply peek_Done in H0 as [-> H0].
  destruct (TokenType_eqb (type t0) KEYWORD_INT) eqn:Hkw; [|discriminate].
  unfold Parser.parseVariableDeclaration in H.
  apply bind_Done in H as (ty & p1 & Hty & H). apply peek_Done in Hty as [-> Hty].
  assert (ty = t0) as -> by congruence. cbv zeta in H.
  apply bind_Done in H as (t1 & p2 & H1 & H). apply peek_Done in H1 as [-> H1].
  destruct (TokenType_eqb (type t1) IDENTIFIER) eqn:Hident; [|discriminate].
  cbn [negb] in H.
  apply bind_Done in H as (id & p3 & Hid & H). apply peek_Done in Hid as [-> Hid].
  assert (id = t1) as -> by congruence. cbv zeta in H.
  apply bind_Done in H as (t2 & p4 & _ & H).
  destruct (negb (TokenType_eqb (type t2) OPERATOR_ASSIGN)); [discriminate|].
  cbv zeta in H. apply bind_Done in H as (e & p5 & Hexpr & H).
  destruct e as [a|]; [|discriminate].
  apply bind_Done in H as (t3 & p6 & _ & H).
  destruct (negb (TokenType_eqb (type t3) PUNCTUATION_SEMICOLON)); [discriminate|].
  cbv zeta in H. injection H as <- _.
  apply parseExpression_kinds in Hexpr. cbn [kinds_ok].
  rewrite Hkw, Hident, Hexpr. reflexivity.
Qed.

Lemma parse_kinds_witness :
  kinds_ok
    (VarDeclNode (mkToken KEYWORD_INT "int") (mkToken IDENTIFIER "x")
       (Some (BinaryOpNode (Some (NumberNode (mkToken INTEGER_LITERAL "1")))
                (mkToken OPERATOR_MINUS "-")
                (Some (NumberNode (mkToken INTEGER_LITERAL "2")))))) = true.
Proof.
  apply (parse_kinds
           [mkToken KEYWORD_INT "int"; mkToken IDENTIFIER "x"; mkToken OPERATOR_ASSIGN "=";
            mkToken INTEGER_LITERAL "1"; mkToken OPERATOR_MINUS "-";
            mkToken INTEGER_LITERAL "2"; mkToken PUNCTUATION_SEMICOLON ";"; END_TOKEN]
           _
           (Parser.mkParser
              [mkToken KEYWORD_INT "int"; mkToken IDENTIFIER "x"; mkToken OPERATOR_ASSIGN "=";
               mkToken INTEGER_LITERAL "1"; mkToken OPERATOR_MINUS "-";
               mkToken INTEGER_LITERAL "2"; mkToken PUNCTUATION_SEMICOLON ";"; END_TOKEN]
              7)).
  reflexivity.
Defined.

(** ** Every [peek] is in range on a sequence that ends with END_OF_FILE *)

Section EndTerminated.

Variables (body : list Token) (eof : Token).
Hypothesis eof_kind : type eof = END_OF_FILE.

Local Abbreviation ts := (body ++ [eof])%list.

Lemma consume i t :
  nth_error ts i = Some t -> type t <> END_OF_FILE ->
  Parser.advance (Parser.mkParser ts i) = Parser.mkParser ts (S i) /\
  S i < List.length ts.
Proof.
  intros Hn Hty.
  assert (Hi : i < List.length ts) by (apply nth_error_Some; congruence).
  rewrite advance_lt by assumption. split; [reflexivity|].
  rewrite length_app in *. simpl in *.
  destruct (Nat.eq_dec i (List.length body)) as [->|Hne]; [|lia].
  rewrite nth_error_app2, Nat.sub_diag in Hn by lia. simpl in Hn.
  congruence.
Qed.

Lemma peek_safe i :
  i < List.length ts ->
  exists t, nth_error ts i = Some t /\
            Parser.peek (Parser.mkParser ts i) = Parser.Done t (Parser.mkParser ts i).
Proof.
  intros Hi. destruct (nth_error ts i) as [t|] eqn:Hn.
  - exists t. split; [reflexivity|]. apply peek_at, Hn.
  - apply nth_error_None in Hn. lia.
Qed.

Lemma parseTerm_safe i :
  i < List.length ts ->
  exists r j, Parser.parseTerm (Parser.mkParser ts i) = Parser.Done r (Parser.mkParser ts j) /\
              i <= j < List.length ts.
Proof.
  intros Hi. destruct (peek_safe i Hi) as (t & Hn & Hpeek).
  unfold Parser.parseTerm. rewrite Hpeek. cbn [Parser.bind].
  destruct (TokenType_eqb (type t) INTEGER_LITERAL) eqn:Hty.
  - apply TokenType_eqb_eq in Hty.
    destruct (consume i t Hn) as [-> Hb]; [congruence|]. eexists _, (S i). split; [reflexivity | lia].
  - eexists _, i. split; [reflexivity | lia].
Qed.

Lemma parseExpression_loop_safe : forall fuel left i,
  List.length ts - i < fuel -> i < List.length ts ->
  safe ts (Parser.parseExpression_loop fuel left (Parser.mkParser ts i)).
Proof.
  induction fuel as [|fuel IH]; intros left i Hf Hi; [lia|].
  cbn [Parser.parseExpression_loop].
  destruct (peek_safe i Hi) as (t & Hn & ->). cbn [Parser.bind].
  destruct (TokenType_eqb (type t) OPERATOR_PLUS || TokenType_eqb (type t) OPERATOR_MINUS)
    eqn:Hop.
  - cbv zeta.
    destruct (consume i t Hn) as [-> Hb].
    { apply orb_true_iff in Hop as [H | H]; apply TokenType_eqb_eq in H; congruence. }
    destruct (parseTerm_safe (S i) Hb) as (r & j & -> & Hj). cbn [Parser.bind].
    destruct r as [b|].
    + apply IH; lia.
    + eexists _, _. split; [reflexivity|]. split; [reflexivity | cbn [Parser.current_token_idx]; lia].
  - eexists _, _. split; [reflexivity|]. split; [reflexivity | cbn [Parser.current_token_idx]; lia].
Qed.

Lemma parseExpression_safe i :
  i < List.length ts -> safe ts (Parser.parseExpression (Parser.mkParser ts i)).
Proof.
  intros Hi. unfold Parser.parseExpression.
  destruct (parseTerm_safe i Hi) as (r & j & -> & Hj). cbn [Parser.bind Parser.tokens].
  apply parseExpression_loop_safe; lia.
Qed.

Lemma parseVariableDeclaration_safe i t :
  nth_error ts i = Some t -> type t = KEYWORD_INT ->
  safe ts (Parser.parseVariableDeclaration (Parser.mkParser ts i)).
Proof.
  intros Hn Hty. unfold Parser.parseVariableDeclaration.
  rewrite (peek_at _ _ _ Hn). cbn [Parser.bind]. cbv zeta.
  destruct (consume i t Hn) as [-> H1]; [congruence|].
  destruct (peek_safe (S i) H1) as (t1 & Hn1 & ->). cbn [Parser.bind].
  destruct (TokenType_eqb (type t1) IDENTIFIER) eqn:Hid; cbn [negb].
  2:{ eexists _, _. split; [reflexivity|]. split; [reflexivity | cbn [Parser.current_token_idx]; lia]. }
  apply TokenType_eqb_eq in Hid.
  rewrite (peek_at _ _ _ Hn1). cbn [Parser.bind]. cbv zeta.
  destruct (consume (S i) t1 Hn1) as [-> H2]; [congruence|].
  destruct (peek_safe (S (S i)) H2) as (t2 & Hn2 & ->). cbn [Parser.bind].
  destruct (TokenType_eqb (type t2) OPERATOR_ASSIGN) eqn:Has; cbn [negb].
  2:{ eexists _, _. split; [reflexivity|]. split; [reflexivity | cbn [Parser.current_token_idx]; lia]. }
  apply TokenType_eqb_eq in Has.
  destruct (consume (S (S i)) t2 Hn2) as [-> H3]; [congruence|].
  destruct (parseExpression_safe (S (S (S i))) H3) as (e & [ts' j] & -> & Htok & Hj).
  cbn [Parser.current_token_idx Parser.tokens] in Htok, Hj. subst ts'. cbn [Parser.bind].
  destruct e as [a|].
  2:{ eexists _, _. split; [reflexivity|]. split; [reflexivity | cbn [Parser.current_token_idx]; lia]. }
  destruct (peek_safe j Hj) as (t3 & Hn3 & ->). cbn [Parser.bind].
  destruct (TokenType_eqb (type t3) PUNCTUATION_SEMICOLON) eqn:Hsemi; cbn [negb].
  2:{ eexists _, _. split; [reflexivity|]. split; [reflexivity | cbn [Parser.current_token_idx]; lia]. }
  apply TokenType_eqb_eq in Hsemi.
  destruct (consume j t3 Hn3) as [-> Hb]; [congruence|].
  eexists _, _. split; [reflexivity|]. split; [reflexivity | exact Hb].
Qed.

Lemma parse_safe : safe ts (Parser.parse (Parser.new ts)).
Proof.
  unfold Parser.parse, Parser.parseStatement, Parser.new.
  assert (H0 : 0 < List.length ts) by (rewrite length_app; simpl; lia).
  destruct (peek_safe 0 H0) as (t & Hn & ->). cbn [Parser.bind].
  destruct (TokenType_eqb (type t) KEYWORD_INT) eqn:Hkw.
  - apply TokenType_eqb_eq in Hkw. eapply parseVariableDeclaration_safe; eassumption.
  - eexists _, _. split; [reflexivity|]. split; [reflexivity | cbn [Parser.current_token_idx]; lia].
Qed.

End EndTerminated.

(** C9 (peek stays in range).  On a non-empty token sequence whose last
    element is an [END_OF_FILE] token and which holds no other such token,
    [parse] returns: no [peek] evaluates [tokens[current_token_idx]] with the
    index out of range (that would make the run [OutOfBounds]), and the
    cursor it leaves behind is still a valid index. *)
Theorem parse_peeks_in_bounds (body : list Token) (eof : Token) :
  type eof = END_OF_FILE ->
  forallb not_end body = true ->
  exists r q,
    Parser.parse (Parser.new (body ++ [eof])) = Parser.Done r q /\
    Parser.tokens q = (body ++ [eof])%list /\
    Parser.current_token_idx q < List.length (body ++ [eof]).
Proof.
  intros Heof _. destruct (parse_safe body eof Heof) as (r & q & Hrun & Htok & Hidx).
  exists r, q. auto.
Qed.

Lemma parse_peeks_in_bounds_witness :
  exists r q,
    Parser.parse
      (Parser.new ([mkToken KEYWORD_INT "int"; mkToken IDENTIFIER "x";
                    mkToken OPERATOR_ASSIGN "="; mkToken INTEGER_LITERAL "5";
                    mkToken PUNCTUATION_SEMICOLON ";"] ++ [END_TOKEN]))
    = Parser.Done r q /\
    Parser.tokens q =
      ([mkToken KEYWORD_INT "int"; mkToken IDENTIFIER "x";
        mkToken OPERATOR_ASSIGN "="; mkToken INTEGER_LITERAL "5";
        mkToken PUNCTUATION_SEMICOLON ";"] ++ [END_TOKEN])%list /\
    Parser.current_token_idx q <
      List.length ([mkToken KEYWORD_INT "int"; mkToken IDENTIFIER "x";
                    mkToken OPERATOR_ASSIGN "="; mkToken INTEGER_LITERAL "5";
                    mkToken PUNCTUATION_SEMICOLON ";"] ++ [END_TOKEN]).
Proof. apply parse_peeks_in_bounds; reflexivity. Defined.

(** ** Tokens after the semicolon *)

Lemma skipn_cons ts : forall i x l,
  skipn i ts = x :: l ->
  Parser.peek (Parser.mkParser ts i) = Parser.Done x (Parser.mkParser ts i) /\
  Parser.advance (Parser.mkParser ts i) = Parser.mkParser ts (S i) /\
  skipn (S i) ts = l.
Proof.
  assert (H : forall i x l, skipn i ts = x :: l ->
                            nth_error ts i = Some x /\ skipn (S i) ts = l).
  { induction ts as [|a ts' IH]; intros [|i] x l Hs; simpl in Hs; try discriminate.
    - injection Hs as -> ->. auto.
    - apply IH in Hs as [H1 H2]. auto. }
  intros i x l Hs. apply H in Hs as [Hn Hs]. repeat split.
  - apply peek_at, Hn.
  - apply advance_lt, nth_error_Some. congruence.
  - exact Hs.
Qed.

Lemma parseExpression_loop_operands ts : forall ops i left fuel semi rest,
  forallb operand_ok ops = true ->
  type semi = PUNCTUATION_SEMICOLON ->
  List.length ops < fuel ->
  skipn i ts = (operands ops ++ semi :: rest)%list ->
  Parser.parseExpression_loop fuel (Some left) (Parser.mkParser ts i) =
  Parser.Done (Some (fold_ops left ops))
              (Parser.mkParser ts (i + List.length (operands ops))).
Proof.
  induction ops as [|[op n] ops IH]; intros i left fuel semi rest Hok Hsemi Hf Hs;
    (destruct fuel as [|fuel]; [simpl in Hf; lia|]); cbn [Parser.parseExpression_loop].
  - simpl in Hs. apply skipn_cons in Hs as (-> & _ & _). cbn [Parser.bind].
    rewrite Hsemi. simpl. rewrite Nat.add_0_r. reflexivity.
  - simpl in Hs, Hok. apply andb_true_iff in Hok as [Hon Hok].
    unfold operand_ok in Hon. apply andb_true_iff in Hon as [Hop Hn]. simpl in Hop, Hn.
    apply skipn_cons in Hs as (-> & Hadv & Hs). cbn [Parser.bind].
    unfold is_sum_operator in Hop. rewrite Hop. cbv zeta. rewrite Hadv.
    apply skipn_cons in Hs as (Hpeek & Hadv' & Hs).
    unfold Parser.parseTerm. rewrite Hpeek. cbn [Parser.bind]. rewrite Hn, Hadv'.
    cbn [Parser.bind]. rewrite (IH (S (S i)) _ fuel semi rest); try assumption.
    + simpl. do 2 f_equal. lia.
    + simpl in Hf. lia.
Qed.

Lemma length_operands ops : List.length (operands ops) = 2 * List.length ops.
Proof. induction ops as [|on ops IH]; simpl; lia. Qed.

(** C10 (nothing after the semicolon is inspected).  When the token
    sequence starts with a well-formed declaration, [parse] returns the tree
    of that declaration and leaves the cursor just behind the semicolon,
    whatever tokens [rest] follow it: the result does not depend on
    [rest]. *)
Theorem parse_ignores_trailing_tokens
    (kw id eq n0 : Token) (ops : list (Token * Token)) (semi : Token)
    (rest : list Token) :
  declaration_ok kw id eq n0 ops semi = true ->
  Parser.parse (Parser.new (declaration kw id eq n0 ops semi ++ rest)) =
  Parser.Done
    (Some (VarDeclNode kw id (Some (fold_ops (NumberNode n0) ops))))
    (Parser.mkParser (declaration kw id eq n0 ops semi ++ rest)
                     (List.length (declaration kw id eq n0 ops semi))).
Proof.
  unfold declaration_ok. intros Hok.
  repeat (apply andb_true_iff in Hok as [Hok ?]).
  repeat match goal with H : TokenType_eqb _ _ = true |- _ => apply TokenType_eqb_eq in H end.
  set (ts := (declaration kw id eq n0 ops semi ++ rest)%list).
  assert (Hs : skipn 0 ts =
               kw :: id :: eq :: n0 :: (operands ops ++ semi :: rest)%list).
  { unfold ts, declaration. simpl. rewrite <- app_assoc. reflexivity. }
  unfold Parser.parse, Parser.parseStatement, Parser.new.
  apply skipn_cons in Hs as (Hp0 & Ha0 & Hs).
  rewrite Hp0. cbn [Parser.bind]. rewrite Hok. rewrite TokenType_eqb_refl.
  unfold Parser.parseVariableDeclaration.
  rewrite Hp0. cbn [Parser.bind]. cbv zeta. rewrite Ha0.
  apply skipn_cons in Hs as (Hp1 & Ha1 & Hs).
  rewrite Hp1. cbn [Parser.bind]. rewrite H3. rewrite TokenType_eqb_refl. cbn [negb].
  rewrite Hp1. cbn [Parser.bind]. cbv zeta. rewrite Ha1.
  apply skipn_cons in Hs as (Hp2 & Ha2 & Hs).
  rewrite Hp2. cbn [Parser.bind]. rewrite H2. rewrite TokenType_eqb_refl. cbn [negb]. rewrite Ha2.
  pose proof Hs as Hs'. apply skipn_cons in Hs' as (Hp3 & Ha3 & Hs').
  unfold Parser.parseExpression, Parser.parseTerm.
  rewrite Hp3. cbn [Parser.bind]. rewrite H1. rewrite TokenType_eqb_refl.
  rewrite Ha3. cbn [Parser.bind Parser.tokens].
  rewrite (parseExpression_loop_operands ts ops 4 (NumberNode n0) _ semi rest);
    try assumption.
  2:{ unfold ts, declaration. simpl. rewrite !length_app, length_operands. lia. }
  cbn [Parser.bind].
  assert (Hs4 : skipn (4 + List.length (operands ops)) ts = semi :: rest).
  { rewrite Nat.add_comm, <- skipn_skipn, Hs'.
    rewrite skipn_app, Nat.sub_diag, skipn_all. reflexivity. }
  apply skipn_cons in Hs4 as (Hp4 & Ha4 & _).
  rewrite Hp4. cbn [Parser.bind]. rewrite H. rewrite TokenType_eqb_refl. cbn [negb]. cbv zeta.
  rewrite Ha4. do 2 f_equal.
  unfold declaration. simpl. rewrite length_app. simpl. lia.
Qed.

Lemma parse_ignores_trailing_tokens_witness :
  Parser.parse
    (Parser.new
       (declaration (mkToken KEYWORD_INT "int") (mkToken IDENTIFIER "x")
          (mkToken OPERATOR_ASSIGN "=") (mkToken INTEGER_LITERAL "1")
          [(mkToken OPERATOR_PLUS "+", mkToken INTEGER_LITERAL "2")]
          (mkToken PUNCTUATION_SEMICOLON ";")
        ++ [mkToken UNKNOWN "@"; mkToken KEYWORD_INT "int"; END_TOKEN])) =
  Parser.Done
    (Some (VarDeclNode (mkToken KEYWORD_INT "int") (mkToken IDENTIFIER "x")
             (Some (fold_ops (NumberNode (mkToken INTEGER_LITERAL "1"))
                      [(mkToken OPERATOR_PLUS "+", mkToken INTEGER_LITERAL "2")]))))
    (Parser.mkParser
       (declaration (mkToken KEYWORD_INT "int") (mkToken IDENTIFIER "x")
          (mkToken OPERATOR_ASSIGN "=") (mkToken INTEGER_LITERAL "1")
          [(mkToken OPERATOR_PLUS "+", mkToken INTEGER_LITERAL "2")]
          (mkToken PUNCTUATION_SEMICOLON ";")
        ++ [mkToken UNKNOWN "@"; mkToken KEYWORD_INT "int"; END_TOKEN])
       (List.length
          (declaration (mkToken KEYWORD_INT "int") (mkToken IDENTIFIER "x")
             (mkToken OPERATOR_ASSIGN "=") (mkToken INTEGER_LITERAL "1")
             [(mkToken OPERATOR_PLUS "+", mkToken INTEGER_LITERAL "2")]
             (mkToken PUNCTUATION_SEMICOLON ";")))).
Proof. apply parse_ignores_trailing_tokens. reflexivity. Defined.

(** Through the whole pipeline: text after the semicolon changes nothing. *)
Example trailing_text_accepted :
  result (compile "int x = 1 + 2; @ int 7 ;;") = result (compile "int x = 1 + 2;").
Proof. reflexivity. Qed.

(** ** The pipeline on the documented inputs *)

(** C1 (grammar acceptance).  ["int result = 10 + 20;"] is tokenized and
    parsed to a [VarDeclNode] with identifier lexeme ["result"] whose
    initializer is a [BinaryOpNode] with operator lexeme ["+"], left child
    the number ["10"] and right child the number ["20"]. *)
Theorem compile_sum :
  result (compile "int result = 10 + 20;") =
  Some (Some (VarDeclNode
                (mkToken KEYWORD_INT "int")
                (mkToken IDENTIFIER "result")
                (Some (BinaryOpNode
                         (Some (NumberNode (mkToken INTEGER_LITERAL "10")))
                         (mkToken OPERATOR_PLUS "+")
                         (Some (NumberNode (mkToken INTEGER_LITERAL "20"))))))).
Proof. reflexivity. Qed.

(** C2 (left associativity).  ["int x = 1 + 2 - 3;"] yields the initializer
    [(1 + 2) - 3]: the outermost node is the ["-"] operation, its left child
    the ["+"] operation over ["1"] and ["2"], its right child the number
    ["3"]. *)
Theorem compile_left_associative :
  result (compile "int x = 1 + 2 - 3;") =
  Some (Some (VarDeclNode
                (mkToken KEYWORD_INT "int")
                (mkToken IDENTIFIER "x")
                (Some (BinaryOpNode
                         (Some (BinaryOpNode
                                  (Some (NumberNode (mkToken INTEGER_LITERAL "1")))
                                  (mkToken OPERATOR_PLUS "+")
                                  (Some (NumberNode (mkToken INTEGER_LITERAL "2")))))
                         (mkToken OPERATOR_MINUS "-")
                         (Some (NumberNode (mkToken INTEGER_LITERAL "3"))))))).
Proof. reflexivity. Qed.

(** C3 (failure cases).  A missing identifier, a missing [=], a missing
    operand and a missing [;] each make [parse] return [nullptr]. *)
Theorem compile_failures :
  result (compile "int = 5;") = Some None /\
  result (compile "int x 5;") = Some None /\
  result (compile "int x = ;") = Some None /\
  result (compile "int x = 5") = Some None.
Proof. repeat split; reflexivity. Qed.

(** A single literal is returned without a [BinaryOpNode] around it. *)
Example compile_single_literal :
  result (compile "int result = 10;") =
  Some (Some (VarDeclNode (mkToken KEYWORD_INT "int") (mkToken IDENTIFIER "result")
                (Some (NumberNode (mkToken INTEGER_LITERAL "10"))))).
Proof. reflexivity. Qed.

(** [parseExpression] does not test its first [parseTerm] for [nullptr]
    before the loop: an expression that starts with an operator is accepted
    and its [BinaryOpNode] has a null [left].  This is why the children of
    [AstNode] are [option]s. *)
Remark compile_leading_operator :
  result (compile "int x = + 5;") =
  Some (Some (VarDeclNode (mkToken KEYWORD_INT "int") (mkToken IDENTIFIER "x")
                (Some (BinaryOpNode None (mkToken OPERATOR_PLUS "+")
                         (Some (NumberNode (mkToken INTEGER_LITERAL "5"))))))).
Proof. reflexivity. Qed.

(** ** [advance] and the end of the sequence *)

(** C4, counterexample.  [advance] compares the cursor with
    [tokens.size()], not with the final index [tokens.size() - 1]: with the
    cursor on the last token it is not a no-op, it moves the cursor to
    [tokens.size()]. *)
Lemma advance_at_final_index :
  let p := Parser.mkParser [mkToken KEYWORD_INT "int"; END_TOKEN] 1 in
  Parser.current_token_idx p = List.length (Parser.tokens p) - 1 /\
  Parser.current_token_idx (Parser.advance p) = S (Parser.current_token_idx p) /\
  Parser.advance p <> p.
Proof. cbv zeta. repeat split; try reflexivity. discriminate. Qed.

(** C4, as the code has it.  [advance] never changes the token sequence;
    it moves the cursor forward by exactly one from every position below
    [tokens.size()], the final index included, and leaves it unchanged
    when the cursor is at [tokens.size()] or beyond. *)
Theorem advance_cursor (p : Parser.Parser) :
  Parser.tokens (Parser.advance p) = Parser.tokens p /\
  (Parser.current_token_idx p < List.length (Parser.tokens p) ->
   Parser.current_token_idx (Parser.advance p) = S (Parser.current_token_idx p)) /\
  (List.length (Parser.tokens p) <= Parser.current_token_idx p ->
   Parser.advance p = p).
Proof.
  destruct p as [ts i]. rewrite advance_spec. cbn [Parser.tokens Parser.current_token_idx].
  destruct (Nat.ltb_spec i (List.length ts)); repeat split; intros; try reflexivity; lia.
Qed.

Lemma advance_cursor_witness :
  Parser.current_token_idx
    (Parser.advance (Parser.mkParser [mkToken KEYWORD_INT "int"; END_TOKEN] 1)) = 2 /\
  Parser.advance (Parser.mkParser [mkToken KEYWORD_INT "int"; END_TOKEN] 2) =
  Parser.mkParser [mkToken KEYWORD_INT "int"; END_TOKEN] 2.
Proof.
  split.
  - apply (advance_cursor (Parser.mkParser [mkToken KEYWORD_INT "int"; END_TOKEN] 1)).
    simpl. lia.
  - apply (advance_cursor (Parser.mkParser [mkToken KEYWORD_INT "int"; END_TOKEN] 2)).
    simpl. lia.
Defined.

(** Without the end marker the cursor can leave the sequence: on the
    one-token sequence [int], [parse] advances from the final index and the
    next [peek] is out of range. *)
Remark parse_without_end_marker :
  Parser.parse (Parser.new [mkToken KEYWORD_INT "int"]) = Parser.OutOfBounds.
Proof. reflexivity. Qed.

(** * Further properties of the lexer *)

(** ** Skipping whitespace *)

(** [skipWhitespace] keeps the source, never moves the cursor backwards,
    passes whitespace only and stops at the end of the source or at the
    first character that is not whitespace; a second call changes
    nothing. *)
Theorem skipWhitespace_stops_at_token (src : string) (pos : nat) :
  let lx := Lexer.skipWhitespace (Lexer.mkLexer src pos) in
  Lexer.source_code lx = src /\
  pos <= Lexer.current_pos lx /\
  (forall i, pos <= i < Lexer.current_pos lx ->
             exists c, get i src = Some c /\ isspace c = true) /\
  (forall c, get (Lexer.current_pos lx) src = Some c -> isspace c = false) /\
  Lexer.skipWhitespace lx = lx.
Proof.
  unfold Lexer.skipWhitespace, Lexer.scan_from. cbn [Lexer.source_code Lexer.current_pos].
  destruct (scan_exit isspace src (length src - pos) pos) as (H1 & _ & H3 & H4); [lia|].
  set (e := Lexer.scan isspace src pos (length src - pos)) in *.
  repeat split; try assumption.
  f_equal. destruct (get e src) as [c|] eqn:Hget.
  - pose proof (get_Some_lt _ _ _ Hget).
    destruct (length src - e) eqn:Hf; [lia|]. simpl. rewrite Hget, (H4 c eq_refl). reflexivity.
  - apply get_None in Hget. replace (length src - e) with 0 by lia. reflexivity.
Qed.

(** ** The token at the cursor, by its first character *)

(** After any whitespace, a digit starts an [INTEGER_LITERAL] whose lexeme
    is the maximal run of digits from there; the cursor ends behind it. *)
Theorem integer_literal_maximal (src : string) (pos ws : nat) (c : ascii) :
  pos <= ws ->
  (forall i, pos <= i < ws -> exists d, get i src = Some d /\ isspace d = true) ->
  get ws src = Some c -> isdigit c = true ->
  exists e,
    Lexer.getNextToken (Lexer.mkLexer src pos) =
      (mkToken INTEGER_LITERAL (substring ws (e - ws) src), Lexer.mkLexer src e) /\
    ws < e /\ e <= length src /\
    (forall i, ws <= i < e -> exists d, get i src = Some d /\ isdigit d = true) /\
    (forall d, get e src = Some d -> isdigit d = false).
Proof.
  intros Hle Hws Hget Hdig.
  pose proof (get_Some_lt _ _ _ Hget) as Hlt.
  rewrite (getNextToken_skip src pos ws) by (assumption || lia).
  assert (Hsp : isspace c = false).
  { apply isdigit_nonspace in Hdig. apply negb_true_iff. exact Hdig. }
  unfold Lexer.getNextToken. rewrite (skip_nothing src ws c Hget Hsp).
  cbn [Lexer.source_code Lexer.current_pos]. rewrite Hget.
  destruct (Ascii.eqb_spec c "+") as [->|_]; [discriminate Hdig|].
  destruct (Ascii.eqb_spec c "-") as [->|_]; [discriminate Hdig|].
  destruct (Ascii.eqb_spec c "*") as [->|_]; [discriminate Hdig|].
  destruct (Ascii.eqb_spec c "/") as [->|_]; [discriminate Hdig|].
  destruct (Ascii.eqb_spec c "=") as [->|_]; [discriminate Hdig|].
  destruct (Ascii.eqb_spec c ";") as [->|_]; [discriminate Hdig|].
  rewrite Hdig. unfold Lexer.readInteger, Lexer.scan_from.
  cbn [Lexer.source_code Lexer.current_pos].
  pose proof (scan_progress isdigit src ws c Hget Hdig) as Hprog.
  destruct (scan_exit isdigit src (length src - ws) ws) as (H1 & H2 & H3 & H4); [lia|].
  eexists. repeat split; try eassumption. apply H2. lia.
Qed.

Lemma integer_literal_maximal_witness :
  exists e,
    Lexer.getNextToken (Lexer.mkLexer "x =  42+1" 3) =
      (mkToken INTEGER_LITERAL (substring 5 (e - 5) "x =  42+1"),
       Lexer.mkLexer "x =  42+1" e) /\
    5 < e /\ e <= length "x =  42+1" /\
    (forall i, 5 <= i < e -> exists d, get i "x =  42+1" = Some d /\ isdigit d = true) /\
    (forall d, get e "x =  42+1" = Some d -> isdigit d = false).
Proof.
  apply (integer_literal_maximal "x =  42+1" 3 5 "4").
  - lia.
  - intros i Hi. assert (i = 3 \/ i = 4) as [-> | ->] by lia; eexists; split; reflexivity.
  - reflexivity.
  - reflexivity.
Defined.

(** After any whitespace, a character that is neither a digit nor a letter
    gives a token of exactly that one character -- an operator, the
    semicolon, or [UNKNOWN] -- and the cursor moves one behind it. *)
Theorem single_character_token (src : string) (pos ws : nat) (c : ascii) :
  pos <= ws ->
  (forall i, pos <= i < ws -> exists d, get i src = Some d /\ isspace d = true) ->
  get ws src = Some c ->
  isspace c = false -> isdigit c = false -> isalpha c = false ->
  Lexer.getNextToken (Lexer.mkLexer src pos) =
    (mkToken (single_char_kind c) (String c EmptyString), Lexer.mkLexer src (S ws)).
Proof.
  intros Hle Hws Hget Hsp Hdig Halpha.
  pose proof (get_Some_lt _ _ _ Hget) as Hlt.
  rewrite (getNextToken_skip src pos ws) by (assumption || lia).
  unfold Lexer.getNextToken. rewrite (skip_nothing src ws c Hget Hsp).
  cbn [Lexer.source_code Lexer.current_pos]. rewrite Hget.
  unfold single_char_kind, Lexer.bump. cbn [Lexer.source_code Lexer.current_pos].
  destruct (Ascii.eqb_spec c "+") as [->|_]; [reflexivity|].
  destruct (Ascii.eqb_spec c "-") as [->|_]; [reflexivity|].
  destruct (Ascii.eqb_spec c "*") as [->|_]; [reflexivity|].
  destruct (Ascii.eqb_spec c "/") as [->|_]; [reflexivity|].
  destruct (Ascii.eqb_spec c "=") as [->|_]; [reflexivity|].
  destruct (Ascii.eqb_spec c ";") as [->|_]; [reflexivity|].
  rewrite Hdig, Halpha. reflexivity.
Qed.

Lemma single_character_token_witness :
  Lexer.getNextToken (Lexer.mkLexer "a  @b" 1) =
    (mkToken (single_char_kind "@") (String "@" EmptyString), Lexer.mkLexer "a  @b" 4).
Proof.
  apply (single_character_token "a  @b" 1 3 "@"); try reflexivity.
  - lia.
  - intros i Hi. assert (i = 1 \/ i = 2) as [-> | ->] by lia; eexists; split; reflexivity.
Defined.

(** ** End of input *)

Lemma substring_head s : forall n m c,
  get n s = Some c -> substring n (S m) s = String c (substring (S n) m s).
Proof.
  induction s as [|a s IH]; intros [|n] m c; simpl; try discriminate.
  - intros [= ->]. reflexivity.
  - intros H. rewrite (IH n m c H). destruct s; reflexivity.
Qed.

(** [getNextToken] returns the [END_OF_FILE] token exactly when nothing but
    whitespace is left from the cursor on (in particular when the cursor is
    at or behind the end of the source). *)
Theorem end_of_file_iff_only_whitespace (src : string) (pos : nat) :
  type (fst (Lexer.getNextToken (Lexer.mkLexer src pos))) = END_OF_FILE <->
  (forall i c, pos <= i -> get i src = Some c -> isspace c = true).
Proof.
  destruct (Nat.le_gt_cases pos (length src)) as [Hpos|Hpos].
  - destruct (getNextToken_step src pos Hpos)
      as (ws & e & _ & H1 & H2 & H3 & Hws & Hv & Hns & Hcase).
    destruct (Lexer.getNextToken (Lexer.mkLexer src pos)) as [tok lx]. cbn [fst] in *.
    destruct Hcase as [(-> & Hw & He) | (Hty & Hlt)]; split.
    + intros _ i c Hi Hget. apply get_Some_lt in Hget as Hlt.
      destruct (Hws i) as (d & Hd & Hsp); [lia|]. congruence.
    + reflexivity.
    + intros Heq. contradiction.
    + intros Hall. exfalso.
      destruct (get ws src) as [c|] eqn:Hget; [|apply get_None in Hget; lia].
      pose proof (Hall ws c H1 Hget) as Hsp.
      rewrite Hv in Hns. replace (e - ws) with (S (e - ws - 1)) in Hns by lia.
      rewrite (substring_head _ _ _ _ Hget) in Hns. simpl in Hns.
      unfold nonspace in Hns. rewrite Hsp in Hns. discriminate.
  - unfold Lexer.getNextToken, Lexer.skipWhitespace, Lexer.scan_from.
    cbn [Lexer.source_code Lexer.current_pos].
    replace (length src - pos) with 0 by lia. cbn [Lexer.scan].
    assert (Hn : get pos src = None) by (apply get_None; lia).
    rewrite Hn. split; [|reflexivity].
    intros _ i c Hi Hget. apply get_Some_lt in Hget. lia.
Qed.

(** ** Lexemes are slices of the source *)

Lemma length_substring s : forall n m,
  n + m <= length s -> length (substring n m s) = m.
Proof.
  induction s as [|a s IH]; intros [|n] [|m] H; simpl in *; try lia; try reflexivity.
  - rewrite IH; lia.
  - apply (IH n 0). lia.
  - apply IH. lia.
Qed.

(** One call of [getNextToken] from a cursor inside the source.  Let [ws]
    be where the whitespace at the cursor ends: everything in [pos, ws) is
    whitespace and the character at [ws], if there is one, is not.  The
    lexeme returned is the slice of the source that starts at [ws]; it is
    free of whitespace, and it is empty only when [ws] is the end of the
    source.  The cursor is left directly behind that slice, still inside
    the source, and the source is unchanged. *)
Theorem token_is_source_slice (src : string) (pos : nat) :
  pos <= length src ->
  exists ws,
    let tok := fst (Lexer.getNextToken (Lexer.mkLexer src pos)) in
    pos <= ws /\
    (forall i, pos <= i < ws -> exists c, get i src = Some c /\ isspace c = true) /\
    (forall c, get ws src = Some c -> isspace c = false) /\
    value tok = substring ws (length (value tok)) src /\
    string_forallb nonspace (value tok) = true /\
    (ws < length src -> 0 < length (value tok)) /\
    snd (Lexer.getNextToken (Lexer.mkLexer src pos)) =
      Lexer.mkLexer src (ws + length (value tok)) /\
    ws + length (value tok) <= length src.
Proof.
  intros Hpos.
  destruct (getNextToken_step src pos Hpos)
    as (ws & e & Hs & H1 & H2 & H3 & Hws & Hv & Hns & Hcase).
  exists ws. cbv zeta.
  assert (Hlen : length (value (fst (Lexer.getNextToken (Lexer.mkLexer src pos)))) = e - ws).
  { rewrite Hv. apply length_substring. lia. }
  assert (Hstop : forall c, get ws src = Some c -> isspace c = false).
  { intros c Hget. destruct Hcase as [(_ & Hw & _) | (_ & Hlt)].
    - apply get_Some_lt in Hget. lia.
    - rewrite Hv in Hns. replace (e - ws) with (S (e - ws - 1)) in Hns by lia.
      rewrite (substring_head _ _ _ _ Hget) in Hns. simpl in Hns.
      apply andb_true_iff in Hns as [Hc _]. apply negb_true_iff. exact Hc. }
  assert (Hprogress : ws < length src -> 0 < e - ws).
  { intros Hlt. destruct Hcase as [(_ & Hw & _) | (_ & Hlt')]; lia. }
  rewrite Hlen. replace (ws + (e - ws)) with e by lia.
  repeat split; assumption.
Qed.

Lemma token_is_source_slice_witness :
  exists ws,
    let tok := fst (Lexer.getNextToken (Lexer.mkLexer "a  bc+" 1)) in
    1 <= ws /\
    (forall i, 1 <= i < ws -> exists c, get i "a  bc+" = Some c /\ isspace c = true) /\
    (forall c, get ws "a  bc+" = Some c -> isspace c = false) /\
    value tok = substring ws (length (value tok)) "a  bc+" /\
    string_forallb nonspace (value tok) = true /\
    (ws < length "a  bc+" -> 0 < length (value tok)) /\
    snd (Lexer.getNextToken (Lexer.mkLexer "a  bc+" 1)) =
      Lexer.mkLexer "a  bc+" (ws + length (value tok)) /\
    ws + length (value tok) <= length "a  bc+".
Proof. apply (token_is_source_slice "a  bc+" 1). simpl. lia. Defined.

(** ** Every lexeme fits its kind *)

Lemma getNextToken_lexeme_ok src pos :
  pos <= length src ->
  lexeme_ok (fst (Lexer.getNextToken (Lexer.mkLexer src pos))) = true.
Proof.
  intros Hpos. unfold Lexer.getNextToken, Lexer.skipWhitespace, Lexer.scan_from.
  cbn [Lexer.source_code Lexer.current_pos].
  destruct (scan_exit isspace src (length src - pos) pos) as (H1 & H2 & H3 & H4); [lia|].
  set (ws := Lexer.scan isspace src pos (length src - pos)) in *.
  destruct (get ws src) as [c|] eqn:Hget; [|reflexivity].
  pose proof (get_Some_lt _ _ _ Hget) as Hlt.
  pose proof (H4 c eq_refl) as Hsp.
  destruct (Ascii.eqb c "+") eqn:E1; [reflexivity|].
  destruct (Ascii.eqb c "-") eqn:E2; [reflexivity|].
  destruct (Ascii.eqb c "*") eqn:E3; [reflexivity|].
  destruct (Ascii.eqb c "/") eqn:E4; [reflexivity|].
  destruct (Ascii.eqb c "=") eqn:E5; [reflexivity|].
  destruct (Ascii.eqb c ";") eqn:E6; [reflexivity|].
  destruct (isdigit c) eqn:Hdig.
  { unfold Lexer.readInteger, Lexer.scan_from, lexeme_ok.
    cbn [Lexer.source_code Lexer.current_pos fst type value].
    pose proof (scan_progress isdigit src ws c Hget Hdig) as Hprog.
    destruct (scan_exit isdigit src (length src - ws) ws) as (_ & _ & G3 & _); [lia|].
    set (e := Lexer.scan isdigit src ws (length src - ws)) in *.
    rewrite (string_forallb_substring isdigit src ws (e - ws)).
    2:{ intros i Hi. apply G3. lia. }
    replace (e - ws) with (S (e - ws - 1)) by lia.
    rewrite (substring_head _ _ _ _ Hget). reflexivity. }
  destruct (isalpha c) eqn:Halpha.
  { unfold Lexer.readIdentifierOrKeyword, Lexer.scan_from.
    cbn [Lexer.source_code Lexer.current_pos].
    assert (Hal : isalnum c = true) by (unfold isalnum; rewrite Halpha; reflexivity).
    pose proof (scan_progress isalnum src ws c Hget Hal) as Hprog.
    destruct (scan_exit isalnum src (length src - ws) ws) as (_ & _ & G3 & _); [lia|].
    set (e := Lexer.scan isalnum src ws (length src - ws)) in *.
    destruct (substring ws (e - ws) src =? "int")%string eqn:Hint;
      unfold lexeme_ok; cbn [fst type value]; [exact Hint|].
    rewrite Hint, (string_forallb_substring isalnum src ws (e - ws)).
    2:{ intros i Hi. apply G3. lia. }
    replace (e - ws) with (S (e - ws - 1)) by lia.
    rewrite (substring_head _ _ _ _ Hget). simpl. rewrite Halpha. reflexivity. }
  unfold lexeme_ok, single_char_kind. cbn [fst type value].
  rewrite Hsp, Hdig, Halpha, E1, E2, E3, E4, E5, E6. reflexivity.
Qed.

Lemma collect_forallb (P : Token -> bool) src :
  (forall pos, pos <= length src ->
               P (fst (Lexer.getNextToken (Lexer.mkLexer src pos))) = true) ->
  forall fuel pos toks,
    pos <= length src ->
    Lexer.collect fuel (Lexer.mkLexer src pos) = Some toks ->
    forallb P toks = true.
Proof.
  intros HP. induction fuel as [|fuel IH]; intros pos toks Hpos Hc; [discriminate|].
  simpl in Hc. pose proof (HP pos Hpos) as Htok.
  destruct (getNextToken_step src pos Hpos) as (ws & e & Hs & _ & _ & He & _).
  destruct (Lexer.getNextToken (Lexer.mkLexer src pos)) as [tok lx]. cbn [fst snd] in *.
  subst lx. destruct (TokenType_eqb (type tok) END_OF_FILE).
  - injection Hc as <-. simpl. rewrite Htok. reflexivity.
  - destruct (Lexer.collect fuel (Lexer.mkLexer src e)) as [rest|] eqn:Hrest; [|discriminate].
    injection Hc as <-. simpl. rewrite Htok. eapply IH; eassumption.
Qed.

(** Every token the driver loop collects carries a lexeme of its kind: the
    keyword is [int], an identifier is a letter followed by letters and
    digits and is not [int], an integer literal is a non-empty string of
    digits, an operator or semicolon is its own character, [UNKNOWN] is one
    character that nothing else accepts, and the end marker is empty. *)
Theorem tokenize_lexemes_fit_kinds (src : string) :
  exists toks, Lexer.tokenize src = Some toks /\ forallb lexeme_ok toks = true.
Proof.
  destruct (tokenize_total src) as (toks & Htok & _).
  eexists. split; [exact Htok|].
  eapply (collect_forallb lexeme_ok src (getNextToken_lexeme_ok src)); [|exact Htok]. lia.
Qed.

(** ** Leading whitespace *)

Lemma length_append s t : length (s ++ t) = length s + length t.
Proof. induction s as [|a s IH]; simpl; congruence. Qed.

Lemma get_append_shift pre s i : get (length pre + i) (pre ++ s) = get i s.
Proof. induction pre as [|a pre IH]; simpl; auto. Qed.

Lemma substring_append_shift pre s a n :
  substring (length pre + a) n (pre ++ s) = substring a n s.
Proof. induction pre as [|b pre IH]; simpl; auto. Qed.

Lemma scan_shift p pre s : forall fuel pos,
  Lexer.scan p (pre ++ s) (length pre + pos) fuel = length pre + Lexer.scan p s pos fuel.
Proof.
  induction fuel as [|fuel IH]; intros pos; simpl; [reflexivity|].
  rewrite get_append_shift. destruct (get pos s) as [c|]; [|reflexivity].
  destruct (p c); [|reflexivity].
  rewrite <- IH. f_equal. lia.
Qed.

Lemma getNextToken_source lx :
  Lexer.source_code (snd (Lexer.getNextToken lx)) = Lexer.source_code lx.
Proof.
  unfold Lexer.getNextToken, Lexer.readInteger, Lexer.readIdentifierOrKeyword.
  destruct (get _ _) as [c|]; [|reflexivity].
  repeat match goal with
         | |- context [if ?b then _ else _] => destruct b
         end; reflexivity.
Qed.

(** The tokens depend on the text from the cursor on only: in front of a
    prefix [pre] the same token is returned and the cursor moves alike. *)
Lemma getNextToken_shift pre s pos :
  Lexer.getNextToken (Lexer.mkLexer (pre ++ s) (length pre + pos)) =
  (fst (Lexer.getNextToken (Lexer.mkLexer s pos)),
   Lexer.mkLexer (pre ++ s)
     (length pre + Lexer.current_pos (snd (Lexer.getNextToken (Lexer.mkLexer s pos))))).
Proof.
  unfold Lexer.getNextToken, Lexer.skipWhitespace, Lexer.readInteger,
    Lexer.readIdentifierOrKeyword, Lexer.scan_from, Lexer.bump.
  cbn [Lexer.source_code Lexer.current_pos].
  rewrite length_append.
  replace (length pre + length s - (length pre + pos)) with (length s - pos) by lia.
  rewrite scan_shift, get_append_shift.
  set (ws := Lexer.scan isspace s pos (length s - pos)).
  destruct (get ws s) as [c|]; [|reflexivity].
  replace (length pre + length s - (length pre + ws)) with (length s - ws) by lia.
  rewrite !scan_shift.
  replace (length pre + Lexer.scan isdigit s ws (length s - ws) - (length pre + ws))
    with (Lexer.scan isdigit s ws (length s - ws) - ws) by lia.
  replace (length pre + Lexer.scan isalnum s ws (length s - ws) - (length pre + ws))
    with (Lexer.scan isalnum s ws (length s - ws) - ws) by lia.
  rewrite !substring_append_shift.
  repeat match goal with
         | |- context [if ?b then _ else _] => destruct b
         end; cbn [fst snd Lexer.current_pos]; try reflexivity.
  all: do 2 f_equal; lia.
Qed.

Lemma collect_shift pre s : forall fuel pos,
  Lexer.collect fuel (Lexer.mkLexer (pre ++ s) (length pre + pos)) =
  Lexer.collect fuel (Lexer.mkLexer s pos).
Proof.
  induction fuel as [|fuel IH]; intros pos; simpl; [reflexivity|].
  rewrite getNextToken_shift.
  pose proof (getNextToken_source (Lexer.mkLexer s pos)) as Hsrc.
  destruct (Lexer.getNextToken (Lexer.mkLexer s pos)) as [tok [s' pos']].
  cbn [fst snd Lexer.source_code Lexer.current_pos] in *. subst s'.
  rewrite IH. reflexivity.
Qed.

Lemma collect_more : forall fuel lx toks,
  Lexer.collect fuel lx = Some toks -> Lexer.collect (S fuel) lx = Some toks.
Proof.
  induction fuel as [|fuel IH]; intros lx toks H; [discriminate|].
  cbn [Lexer.collect] in *.
  destruct (Lexer.getNextToken lx) as [tok lx'].
  destruct (TokenType_eqb (type tok) END_OF_FILE); [assumption|].
  destruct (Lexer.collect fuel lx') as [rest|] eqn:Hrest; [|discriminate].
  rewrite (IH lx' rest Hrest). assumption.
Qed.

Lemma collect_le fuel fuel' lx toks :
  fuel <= fuel' -> Lexer.collect fuel lx = Some toks -> Lexer.collect fuel' lx = Some toks.
Proof. induction 1; auto using collect_more. Qed.

(** Whitespace in front of the source text does not change the tokens. *)
Theorem leading_whitespace_ignored (ws src : string) :
  string_forallb isspace ws = true ->
  Lexer.tokenize (ws ++ src) = Lexer.tokenize src.
Proof.
  intros Hws. destruct (tokenize_total src) as (toks & Htok & _). rewrite Htok.
  unfold Lexer.tokenize, Lexer.new in *.
  assert (Hfirst : Lexer.getNextToken (Lexer.mkLexer (ws ++ src) 0) =
                   Lexer.getNextToken (Lexer.mkLexer (ws ++ src) (length ws + 0))).
  { apply getNextToken_skip; [lia | rewrite length_append; lia |].
    intros i Hi. rewrite Nat.add_0_r in Hi.
    clear - Hws Hi. revert i Hi. induction ws as [|a ws IH]; intros i Hi; simpl in *; [lia|].
    apply andb_true_iff in Hws as [Ha Hws].
    destruct i as [|i]; [exists a; auto|]. apply IH; [assumption | lia]. }
  assert (Hc : forall fuel,
             Lexer.collect fuel (Lexer.mkLexer (ws ++ src) 0) =
             Lexer.collect fuel (Lexer.mkLexer (ws ++ src) (length ws + 0))).
  { intros [|fuel]; [reflexivity|]. cbn [Lexer.collect]. rewrite Hfirst. reflexivity. }
  rewrite Hc, collect_shift.
  apply (collect_le (S (length src))); [rewrite length_append; lia | exact Htok].
Qed.

Lemma leading_whitespace_ignored_witness :
  Lexer.tokenize ("  " ++ "int x;") = Lexer.tokenize "int x;".
Proof. apply leading_whitespace_ignored. reflexivity. Defined.

(** * Further properties of the parser *)

(** ** The cursor only moves forward *)

Lemma forward_refl p : forward p p.
Proof. unfold forward. repeat split; lia. Qed.

Lemma forward_trans p q r : forward p q -> forward q r -> forward p r.
Proof.
  unfold forward. intros (T1 & L1 & U1) (T2 & L2 & U2).
  rewrite T1 in *. repeat split; [congruence | lia | lia].
Qed.

Lemma forward_advance p : forward p (Parser.advance p).
Proof.
  destruct p as [ts i]. rewrite advance_spec. unfold forward. simpl.
  destruct (Nat.ltb_spec i (List.length ts)); repeat split; lia.
Qed.

Lemma parseTerm_forward p r q : Parser.parseTerm p = Parser.Done r q -> forward p q.
Proof.
  unfold Parser.parseTerm. intros H.
  apply bind_Done in H as (t & p1 & Hpeek & H). apply peek_Done in Hpeek as [-> _].
  destruct (TokenType_eqb _ _); injection H as _ <-;
    [apply forward_advance | apply forward_refl].
Qed.

Lemma parseExpression_loop_forward : forall fuel left p r q,
  Parser.parseExpression_loop fuel left p = Parser.Done r q -> forward p q.
Proof.
  induction fuel as [|fuel IH]; intros left p r q H; [discriminate|].
  cbn [Parser.parseExpression_loop] in H.
  apply bind_Done in H as (t & p1 & Hpeek & H). apply peek_Done in Hpeek as [-> _].
  destruct (_ || _).
  - cbv zeta in H. apply bind_Done in H as (right & p2 & Hterm & H).
    apply parseTerm_forward in Hterm.
    pose proof (forward_trans _ _ _ (forward_advance p) Hterm) as Hf.
    destruct right as [b|].
    + apply IH in H. eapply forward_trans; eassumption.
    + injection H as _ <-. exact Hf.
  - injection H as _ <-. apply forward_refl.
Qed.

Lemma parseExpression_forward p r q :
  Parser.parseExpression p = Parser.Done r q -> forward p q.
Proof.
  unfold Parser.parseExpression. intros H.
  apply bind_Done in H as (left & p1 & Hterm & H).
  apply parseTerm_forward in Hterm. apply parseExpression_loop_forward in H.
  eapply forward_trans; eassumption.
Qed.

Lemma parseVariableDeclaration_forward p r q :
  Parser.parseVariableDeclaration p = Parser.Done r q -> forward p q.
Proof.
  unfold Parser.parseVariableDeclaration. intros H.
  apply bind_Done in H as (ty & p1 & Hp & H). apply peek_Done in Hp as [-> _]. cbv zeta in H.
  pose proof (forward_advance p) as F1.
  apply bind_Done in H as (t1 & p2 & Hp & H). apply peek_Done in Hp as [-> _].
  destruct (negb _); [injection H as _ <-; exact F1|].
  apply bind_Done in H as (id & p3 & Hp & H). apply peek_Done in Hp as [-> _]. cbv zeta in H.
  pose proof (forward_trans _ _ _ F1 (forward_advance _)) as F2.
  apply bind_Done in H as (t2 & p4 & Hp & H). apply peek_Done in Hp as [-> _].
  destruct (negb _); [injection H as _ <-; exact F2|]. cbv zeta in H.
  pose proof (forward_trans _ _ _ F2 (forward_advance _)) as F3.
  apply bind_Done in H as (e & p5 & Hexpr & H).
  apply parseExpression_forward in Hexpr.
  pose proof (forward_trans _ _ _ F3 Hexpr) as F4.
  destruct e as [a|]; [|injection H as _ <-; exact F4].
  apply bind_Done in H as (t3 & p6 & Hp & H). apply peek_Done in Hp as [-> _].
  destruct (negb _); [injection H as _ <-; exact F4|]. cbv zeta in H.
  injection H as _ <-. exact (forward_trans _ _ _ F4 (forward_advance _)).
Qed.

(** Whatever [parse] returns, and from whatever cursor it starts, it leaves
    the token sequence as it was, never moves the cursor backwards, and
    never moves it beyond [tokens.size()]. *)
Theorem parse_moves_forward (p : Parser.Parser) (r : option AstNode) (q : Parser.Parser) :
  Parser.parse p = Parser.Done r q ->
  Parser.tokens q = Parser.tokens p /\
  Parser.current_token_idx p <= Parser.current_token_idx q /\
  Parser.current_token_idx q <=
    Nat.max (Parser.current_token_idx p) (List.length (Parser.tokens p)).
Proof.
  unfold Parser.parse, Parser.parseStatement. intros H.
  apply bind_Done in H as (t & p1 & Hp & H). apply peek_Done in Hp as [-> _].
  destruct (TokenType_eqb _ _).
  - apply parseVariableDeclaration_forward in H. exact H.
  - injection H as _ <-. apply forward_refl.
Qed.

Lemma parse_moves_forward_witness :
  Parser.tokens (Parser.mkParser [mkToken KEYWORD_INT "int"; mkToken UNKNOWN "@"; END_TOKEN] 1)
  = Parser.tokens (Parser.new [mkToken KEYWORD_INT "int"; mkToken UNKNOWN "@"; END_TOKEN]) /\
  Parser.current_token_idx (Parser.new [mkToken KEYWORD_INT "int"; mkToken UNKNOWN "@"; END_TOKEN])
  <= Parser.current_token_idx
       (Parser.mkParser [mkToken KEYWORD_INT "int"; mkToken UNKNOWN "@"; END_TOKEN] 1) /\
  Parser.current_token_idx
    (Parser.mkParser [mkToken KEYWORD_INT "int"; mkToken UNKNOWN "@"; END_TOKEN] 1)
  <= Nat.max
       (Parser.current_token_idx
          (Parser.new [mkToken KEYWORD_INT "int"; mkToken UNKNOWN "@"; END_TOKEN]))
       (List.length
          (Parser.tokens
             (Parser.new [mkToken KEYWORD_INT "int"; mkToken UNKNOWN "@"; END_TOKEN]))).
Proof.
  apply (parse_moves_forward
           (Parser.new [mkToken KEYWORD_INT "int"; mkToken UNKNOWN "@"; END_TOKEN]) None).
  reflexivity.
Defined.

(** ** Exactly which token sequences are accepted *)

Lemma skipn_nth (ts : list Token) : forall i x,
  nth_error ts i = Some x -> skipn i ts = x :: skipn (S i) ts.
Proof.
  induction ts as [|a ts IH]; intros [|i] x H; simpl in *; try discriminate.
  - injection H as ->. reflexivity.
  - rewrite (IH i x H). destruct ts; reflexivity.
Qed.

Lemma parseExpression_loop_inv : forall fuel left ts i a q,
  Parser.parseExpression_loop fuel left (Parser.mkParser ts i) = Parser.Done (Some a) q ->
  exists ops,
    forallb operand_ok ops = true /\
    q = Parser.mkParser ts (i + List.length (operands ops)) /\
    skipn i ts = (operands ops ++ skipn (i + List.length (operands ops)) ts)%list /\
    fold_ops_opt left ops = Some a.
Proof.
  induction fuel as [|fuel IH]; intros left ts i a q H; [discriminate|].
  cbn [Parser.parseExpression_loop] in H.
  apply bind_Done in H as (u & p1 & Hpeek & H).
  apply peek_Done in Hpeek as [-> Hu]. cbn [Parser.tokens Parser.current_token_idx] in Hu.
  destruct (TokenType_eqb (type u) OPERATOR_PLUS || TokenType_eqb (type u) OPERATOR_MINUS)
    eqn:Hop.
  - cbv zeta in H.
    rewrite advance_lt in H by (apply nth_error_Some; congruence).
    apply bind_Done in H as (right & p2 & Hterm & H).
    apply parseTerm_Done in Hterm as (n & Hn & [(Hty & -> & ->) | (_ & -> & ->)]);
      [|discriminate].
    apply IH in H as (ops & Hok & -> & Hs & Hfold).
    exists ((u, n) :: ops). cbn [operands flat_map fst snd List.app List.length forallb].
    fold (operands ops). repeat split.
    + unfold operand_ok at 1, is_sum_operator. cbn [fst snd].
      rewrite Hop, Hok. apply TokenType_eqb_eq in Hty. rewrite Hty. reflexivity.
    + f_equal. lia.
    + rewrite (skipn_nth ts i u Hu), (skipn_nth ts (S i) n Hn), Hs.
      replace (i + S (S (List.length (operands ops))))
        with (S (S i) + List.length (operands ops)) by lia.
      reflexivity.
    + exact Hfold.
  - injection H as -> <-. exists []. simpl. rewrite Nat.add_0_r. auto.
Qed.

Lemma app_cons_assoc {A} (l : list A) x r : (l ++ x :: r = (l ++ [x]) ++ r)%list.
Proof. rewrite <- app_assoc. reflexivity. Qed.

(** Soundness of [parse], shared by the theorems below: a returned tree
    comes from a prefix of the shape [accepted], and the cursor is left
    directly behind that prefix. *)
Lemma parse_inversion ts tree q :
  Parser.parse (Parser.new ts) = Parser.Done (Some tree) q ->
  exists kw id eq first ops semi rest,
    ts = (kw :: id :: eq :: first_term first ++ operands ops ++ semi :: rest)%list /\
    type kw = KEYWORD_INT /\ type id = IDENTIFIER /\ type eq = OPERATOR_ASSIGN /\
    match first with
    | Some n => type n = INTEGER_LITERAL
    | None => ops <> []
    end /\
    forallb operand_ok ops = true /\
    type semi = PUNCTUATION_SEMICOLON /\
    tree = VarDeclNode kw id (fold_ops_opt (option_map NumberNode first) ops) /\
    q = Parser.mkParser ts (4 + List.length (first_term first ++ operands ops)).
Proof.
  unfold Parser.parse, Parser.parseStatement, Parser.new. intros H.
  apply bind_Done in H as (t0 & p0 & H0 & H). apply peek_Done in H0 as [-> H0].
  cbn [Parser.tokens Parser.current_token_idx] in H0.
  destruct (TokenType_eqb (type t0) KEYWORD_INT) eqn:Hkw; [|discriminate].
  unfold Parser.parseVariableDeclaration in H.
  apply bind_Done in H as (ty & p1 & Hty & H). apply peek_Done in Hty as [-> Hty].
  cbn [Parser.tokens Parser.current_token_idx] in Hty.
  assert (ty = t0) as -> by congruence. cbv zeta in H.
  rewrite advance_lt in H by (apply nth_error_Some; congruence).
  apply bind_Done in H as (t1 & p2 & H1 & H). apply peek_Done in H1 as [-> H1].
  cbn [Parser.tokens Parser.current_token_idx] in H1.
  destruct (TokenType_eqb (type t1) IDENTIFIER) eqn:Hident; [|discriminate].
  cbn [negb] in H.
  apply bind_Done in H as (id & p3 & Hid & H). apply peek_Done in Hid as [-> Hid].
  cbn [Parser.tokens Parser.current_token_idx] in Hid.
  assert (id = t1) as -> by congruence. cbv zeta in H.
  rewrite advance_lt in H by (apply nth_error_Some; congruence).
  apply bind_Done in H as (t2 & p4 & H2 & H). apply peek_Done in H2 as [-> H2].
  cbn [Parser.tokens Parser.current_token_idx] in H2.
  destruct (TokenType_eqb (type t2) OPERATOR_ASSIGN) eqn:Hassign; [|discriminate].
  cbn [negb] in H. cbv zeta in H.
  rewrite advance_lt in H by (apply nth_error_Some; congruence).
  apply bind_Done in H as (e & p5 & Hexpr & H).
  destruct e as [a|]; [|discriminate].
  unfold Parser.parseExpression in Hexpr.
  apply bind_Done in Hexpr as (left & p' & Hterm & Hloop).
  assert (Hshape : exists first ops j,
             (match first with
              | Some n => TokenType_eqb (type n) INTEGER_LITERAL
              | None => match ops with [] => false | _ :: _ => true end
              end) = true /\
             forallb operand_ok ops = true /\
             p5 = Parser.mkParser ts j /\
             j = 3 + List.length (first_term first ++ operands ops) /\
             skipn 3 ts = (first_term first ++ operands ops ++ skipn j ts)%list /\
             fold_ops_opt (option_map NumberNode first) ops = Some a).
  { apply parseTerm_Done in Hterm as (t3 & H3 & [(Hint & -> & ->) | (Hnot & -> & ->)]);
      cbn [Parser.tokens] in Hloop;
      apply parseExpression_loop_inv in Hloop as (ops & Hok & -> & Hs & Hfold).
    - exists (Some t3), ops, (4 + List.length (operands ops)).
      cbn [first_term option_map List.app List.length].
      repeat split; try assumption; try reflexivity.
      + apply TokenType_eqb_eq, Hint.
      + rewrite (skipn_nth ts 3 t3 H3), Hs. reflexivity.
    - exists None, ops, (3 + List.length (operands ops)).
      cbn [first_term option_map List.app List.length].
      repeat split; try assumption; try reflexivity.
      destruct ops; [discriminate Hfold | reflexivity]. }
  destruct Hshape as (first & ops & j & Hfirst & Hok & -> & Hj & Hs & Hfold).
  apply bind_Done in H as (t3 & p6 & Hp & H). apply peek_Done in Hp as [-> H3].
  cbn [Parser.tokens Parser.current_token_idx] in H3.
  destruct (TokenType_eqb (type t3) PUNCTUATION_SEMICOLON) eqn:Hsemi; [|discriminate].
  cbn [negb] in H. cbv zeta in H.
  rewrite advance_lt in H by (apply nth_error_Some; congruence).
  injection H as <- <-.
  exists t0, t1, t2, first, ops, t3, (skipn (S j) ts).
  pose proof (skipn_nth ts 0 t0 H0) as E0. simpl skipn at 1 in E0.
  rewrite (skipn_nth ts 1 t1 H1), (skipn_nth ts 2 t2 H2), Hs in E0.
  rewrite (skipn_nth ts j t3 H3) in E0.
  apply TokenType_eqb_eq in Hkw, Hident, Hassign, Hsemi.
  repeat split; try assumption.
  - destruct first as [n|]; [apply TokenType_eqb_eq, Hfirst|].
    destruct ops; [discriminate Hfirst | discriminate].
  - rewrite Hfold. reflexivity.
  - f_equal. lia.
Qed.

(** If [parse] returns a tree, the token sequence starts with [int], an
    identifier, [=], an optional integer literal, operator/literal pairs
    (at least one if the literal is missing) and [;]; the tree is the
    declaration with the left fold of these operands; and the cursor is
    left directly behind the [;]. *)
Theorem parse_accepts_only_declarations
    (ts : list Token) (tree : AstNode) (q : Parser.Parser) :
  Parser.parse (Parser.new ts) = Parser.Done (Some tree) q ->
  exists kw id eq first ops semi rest,
    ts = (accepted kw id eq first ops semi ++ rest)%list /\
    accepted_ok kw id eq first ops semi = true /\
    tree = VarDeclNode kw id (fold_ops_opt (option_map NumberNode first) ops) /\
    q = Parser.mkParser ts (List.length (accepted kw id eq first ops semi)).
Proof.
  intros H. apply parse_inversion in H
    as (kw & id & eq & first & ops & semi & rest
        & Hts & Hkw & Hid & Heq & Hfirst & Hok & Hsemi & Htree & Hq).
  exists kw, id, eq, first, ops, semi, rest.
  assert (Hlen : List.length (accepted kw id eq first ops semi) =
                 4 + List.length (first_term first ++ operands ops)).
  { unfold accepted. cbn [List.length]. rewrite !length_app. cbn [List.length]. lia. }
  repeat split.
  - rewrite Hts at 1. unfold accepted. cbn [List.app]. rewrite <- !app_assoc. reflexivity.
  - unfold accepted_ok. rewrite Hkw, Hid, Heq, Hsemi, Hok, !TokenType_eqb_refl.
    destruct first as [n|]; [rewrite Hfirst; reflexivity|].
    destruct ops; [contradiction | reflexivity].
  - exact Htree.
  - rewrite Hlen. exact Hq.
Qed.

Lemma parse_accepts_only_declarations_witness :
  exists kw id eq first ops semi rest,
    [mkToken KEYWORD_INT "int"; mkToken IDENTIFIER "x"; mkToken OPERATOR_ASSIGN "=";
     mkToken OPERATOR_PLUS "+"; mkToken INTEGER_LITERAL "5";
     mkToken PUNCTUATION_SEMICOLON ";"; END_TOKEN]
    = (accepted kw id eq first ops semi ++ rest)%list /\
    accepted_ok kw id eq first ops semi = true /\
    VarDeclNode (mkToken KEYWORD_INT "int") (mkToken IDENTIFIER "x")
      (Some (BinaryOpNode None (mkToken OPERATOR_PLUS "+")
               (Some (NumberNode (mkToken INTEGER_LITERAL "5")))))
    = VarDeclNode kw id (fold_ops_opt (option_map NumberNode first) ops) /\
    Parser.mkParser
      [mkToken KEYWORD_INT "int"; mkToken IDENTIFIER "x"; mkToken OPERATOR_ASSIGN "=";
       mkToken OPERATOR_PLUS "+"; mkToken INTEGER_LITERAL "5";
       mkToken PUNCTUATION_SEMICOLON ";"; END_TOKEN] 6
    = Parser.mkParser
        [mkToken KEYWORD_INT "int"; mkToken IDENTIFIER "x"; mkToken OPERATOR_ASSIGN "=";
         mkToken OPERATOR_PLUS "+"; mkToken INTEGER_LITERAL "5";
         mkToken PUNCTUATION_SEMICOLON ";"; END_TOKEN]
        (List.length (accepted kw id eq first ops semi)).
Proof. apply parse_accepts_only_declarations. reflexivity. Defined.

Lemma fold_ops_opt_some : forall ops left,
  (exists a, left = Some a) \/ ops <> [] ->
  exists a, fold_ops_opt left ops = Some a.
Proof.
  induction ops as [|on ops IH]; intros left H.
  - destruct H as [H | H]; [exact H | contradiction].
  - unfold fold_ops_opt. cbn [fold_left]. apply IH. left. eauto.
Qed.

Lemma parseExpression_loop_operands_opt ts : forall ops i left fuel semi rest,
  forallb operand_ok ops = true ->
  type semi = PUNCTUATION_SEMICOLON ->
  List.length ops < fuel ->
  skipn i ts = (operands ops ++ semi :: rest)%list ->
  Parser.parseExpression_loop fuel left (Parser.mkParser ts i) =
  Parser.Done (fold_ops_opt left ops)
              (Parser.mkParser ts (i + List.length (operands ops))).
Proof.
  induction ops as [|[op n] ops IH]; intros i left fuel semi rest Hok Hsemi Hf Hs;
    (destruct fuel as [|fuel]; [simpl in Hf; lia|]); cbn [Parser.parseExpression_loop].
  - simpl in Hs. apply skipn_cons in Hs as (-> & _ & _). cbn [Parser.bind].
    rewrite Hsemi. simpl. rewrite Nat.add_0_r. reflexivity.
  - simpl in Hs, Hok. apply andb_true_iff in Hok as [Hon Hok].
    unfold operand_ok in Hon. apply andb_true_iff in Hon as [Hop Hn]. simpl in Hop, Hn.
    apply skipn_cons in Hs as (-> & Hadv & Hs). cbn [Parser.bind].
    unfold is_sum_operator in Hop. rewrite Hop. cbv zeta. rewrite Hadv.
    apply skipn_cons in Hs as (Hpeek & Hadv' & Hs).
    unfold Parser.parseTerm. rewrite Hpeek. cbn [Parser.bind]. rewrite Hn, Hadv'.
    cbn [Parser.bind]. rewrite (IH (S (S i)) _ fuel semi rest); try assumption.
    + simpl. do 2 f_equal. lia.
    + simpl in Hf. lia.
Qed.

Lemma sum_operator_not_literal t :
  is_sum_operator t = true -> TokenType_eqb (type t) INTEGER_LITERAL = false.
Proof.
  unfold is_sum_operator. intros H. apply TokenType_eqb_neq.
  apply orb_true_iff in H as [H | H]; apply TokenType_eqb_eq in H; congruence.
Qed.

(** Completeness of [parse]: every token sequence that starts with
    [int], an identifier, [=], an optional integer literal, operator/literal
    pairs (at least one if the literal is missing) and [;] is accepted,
    whatever follows.  In particular an expression that starts with an
    operator is accepted, and the leftmost operand of its tree is null. *)
Theorem parse_accepts_declarations
    (kw id eq : Token) (first : option Token) (ops : list (Token * Token))
    (semi : Token) (rest : list Token) :
  accepted_ok kw id eq first ops semi = true ->
  Parser.parse (Parser.new (accepted kw id eq first ops semi ++ rest)) =
  Parser.Done
    (Some (VarDeclNode kw id (fold_ops_opt (option_map NumberNode first) ops)))
    (Parser.mkParser (accepted kw id eq first ops semi ++ rest)
                     (List.length (accepted kw id eq first ops semi))).
Proof.
  unfold accepted_ok. intros Hok.
  repeat (apply andb_true_iff in Hok as [Hok ?]).
  repeat match goal with
         | H : TokenType_eqb _ ?k = true |- _ =>
             lazymatch k with
             | INTEGER_LITERAL => fail
             | _ => apply TokenType_eqb_eq in H
             end
         end.
  set (ts := (accepted kw id eq first ops semi ++ rest)%list).
  assert (Hs : skipn 0 ts =
               kw :: id :: eq :: (first_term first ++ operands ops ++ semi :: rest)%list).
  { unfold ts, accepted. simpl. rewrite <- !app_assoc. reflexivity. }
  assert (Hsome : exists a, fold_ops_opt (option_map NumberNode first) ops = Some a).
  { apply fold_ops_opt_some. destruct first as [n|]; [left; simpl; eauto|].
    right. destruct ops; [discriminate | discriminate]. }
  destruct Hsome as (a & Ha).
  unfold Parser.parse, Parser.parseStatement, Parser.new.
  apply skipn_cons in Hs as (Hp0 & Ha0 & Hs).
  rewrite Hp0. cbn [Parser.bind]. rewrite Hok, TokenType_eqb_refl.
  unfold Parser.parseVariableDeclaration.
  rewrite Hp0. cbn [Parser.bind]. cbv zeta. rewrite Ha0.
  apply skipn_cons in Hs as (Hp1 & Ha1 & Hs).
  rewrite Hp1. cbn [Parser.bind]. rewrite H3, TokenType_eqb_refl. cbn [negb].
  rewrite Hp1. cbn [Parser.bind]. cbv zeta. rewrite Ha1.
  apply skipn_cons in Hs as (Hp2 & Ha2 & Hs).
  rewrite Hp2. cbn [Parser.bind]. rewrite H2, TokenType_eqb_refl. cbn [negb]. rewrite Ha2.
  assert (Hexpr : Parser.parseExpression (Parser.mkParser ts 3) =
                  Parser.Done (Some a)
                    (Parser.mkParser ts
                       (3 + List.length (first_term first ++ operands ops))) /\
                  skipn (3 + List.length (first_term first ++ operands ops)) ts =
                  semi :: rest).
  { assert (Hfuel : List.length ops < S (List.length ts)).
    { unfold ts, accepted. simpl. rewrite !length_app, length_operands. lia. }
    assert (Hskip : forall i, skipn i ts = (operands ops ++ semi :: rest)%list ->
                              skipn (i + List.length (operands ops)) ts = semi :: rest).
    { intros i Hi. rewrite Nat.add_comm, <- skipn_skipn, Hi.
      rewrite skipn_app, Nat.sub_diag, skipn_all. reflexivity. }
    unfold Parser.parseExpression, Parser.parseTerm.
    destruct first as [n|]; cbn [first_term List.app List.length option_map] in *.
    - pose proof Hs as Hs'. apply skipn_cons in Hs' as (Hp3 & Ha3 & Hs').
      rewrite Hp3. cbn [Parser.bind]. rewrite H1, Ha3. cbn [Parser.bind Parser.tokens].
      rewrite (parseExpression_loop_operands_opt ts ops 4 _ _ semi rest); try assumption.
      rewrite Ha. split; [do 2 f_equal|]. apply (Hskip 4 Hs').
    - destruct ops as [|[op n] ops']; [discriminate|].
      pose proof Hs as Hs'. cbn [operands flat_map fst snd List.app] in Hs'.
      apply skipn_cons in Hs' as (Hp3 & _ & _).
      rewrite Hp3. cbn [Parser.bind].
      simpl in H0. apply andb_true_iff in H0 as [Hon H0'].
      unfold operand_ok in Hon. apply andb_true_iff in Hon as [Hop Hn]. cbn [fst snd] in *.
      rewrite (sum_operator_not_literal op Hop). cbn [Parser.bind Parser.tokens].
      rewrite (parseExpression_loop_operands_opt ts ((op, n) :: ops') 3 _ _ semi rest);
        try assumption.
      + rewrite Ha. split; [reflexivity|]. apply (Hskip 3 Hs).
      + cbn [forallb]. unfold operand_ok at 1. cbn [fst snd]. rewrite Hop, Hn. exact H0'. }
  destruct Hexpr as [-> Hs4]. cbn [Parser.bind].
  apply skipn_cons in Hs4 as (Hp4 & Ha4 & _).
  rewrite Hp4. cbn [Parser.bind]. rewrite H, TokenType_eqb_refl. cbn [negb]. cbv zeta.
  rewrite Ha4, Ha. do 2 f_equal.
  unfold accepted. cbn [List.length]. rewrite !length_app. cbn [List.length]. lia.
Qed.

Lemma parse_accepts_declarations_witness :
  Parser.parse
    (Parser.new
       (accepted (mkToken KEYWORD_INT "int") (mkToken IDENTIFIER "x")
          (mkToken OPERATOR_ASSIGN "=") None
          [(mkToken OPERATOR_MINUS "-", mkToken INTEGER_LITERAL "5")]
          (mkToken PUNCTUATION_SEMICOLON ";") ++ [END_TOKEN])) =
  Parser.Done
    (Some (VarDeclNode (mkToken KEYWORD_INT "int") (mkToken IDENTIFIER "x")
             (fold_ops_opt (option_map NumberNode None)
                [(mkToken OPERATOR_MINUS "-", mkToken INTEGER_LITERAL "5")])))
    (Parser.mkParser
       (accepted (mkToken KEYWORD_INT "int") (mkToken IDENTIFIER "x")
          (mkToken OPERATOR_ASSIGN "=") None
          [(mkToken OPERATOR_MINUS "-", mkToken INTEGER_LITERAL "5")]
          (mkToken PUNCTUATION_SEMICOLON ";") ++ [END_TOKEN])
       (List.length
          (accepted (mkToken KEYWORD_INT "int") (mkToken IDENTIFIER "x")
             (mkToken OPERATOR_ASSIGN "=") None
             [(mkToken OPERATOR_MINUS "-", mkToken INTEGER_LITERAL "5")]
             (mkToken PUNCTUATION_SEMICOLON ";")))).
Proof. apply parse_accepts_declarations. reflexivity. Defined.

(** ** The shape and the tokens of a returned tree *)

Lemma tree_tokens_fold : forall ops left,
  tree_tokens_opt (fold_ops_opt left ops) = (tree_tokens_opt left ++ operands ops)%list.
Proof.
  induction ops as [|[op n] ops IH]; intros left.
  - simpl. rewrite app_nil_r. reflexivity.
  - unfold fold_ops_opt. cbn [fold_left fst snd]. fold (fold_ops_opt
      (Some (BinaryOpNode left op (Some (NumberNode n)))) ops).
    rewrite IH. cbn [tree_tokens_opt tree_tokens operands flat_map fst snd List.app].
    fold (tree_tokens_opt left). fold (operands ops).
    rewrite <- app_assoc. reflexivity.
Qed.

(** The tree keeps every consumed token but [=] and [;], in the order of
    the input: putting the [=] back behind the first two tokens of the tree
    and the [;] behind its last gives the consumed part of the input. *)
Theorem tree_holds_consumed_tokens (ts : list Token) (tree : AstNode) (q : Parser.Parser) :
  Parser.parse (Parser.new ts) = Parser.Done (Some tree) q ->
  exists eq semi rest,
    ts = (firstn 2 (tree_tokens tree) ++ eq :: skipn 2 (tree_tokens tree)
            ++ semi :: rest)%list /\
    type eq = OPERATOR_ASSIGN /\ type semi = PUNCTUATION_SEMICOLON /\
    Parser.current_token_idx q = List.length (tree_tokens tree) + 2.
Proof.
  intros H. apply parse_inversion in H
    as (kw & id & eq & first & ops & semi & rest
        & Hts & _ & _ & Heq & _ & _ & Hsemi & -> & ->).
  exists eq, semi, rest.
  cbn [tree_tokens]. fold (tree_tokens_opt (fold_ops_opt (option_map NumberNode first) ops)).
  rewrite tree_tokens_fold.
  replace (tree_tokens_opt (option_map NumberNode first)) with (first_term first)
    by (destruct first; reflexivity).
  cbn [firstn skipn List.app Parser.current_token_idx List.length].
  repeat split; try assumption.
  - rewrite Hts at 1. rewrite <- !app_assoc. reflexivity.
  - lia.
Qed.

Lemma tree_holds_consumed_tokens_witness :
  exists eq semi rest,
    [mkToken KEYWORD_INT "int"; mkToken IDENTIFIER "x"; mkToken OPERATOR_ASSIGN "=";
     mkToken INTEGER_LITERAL "1"; mkToken OPERATOR_PLUS "+"; mkToken INTEGER_LITERAL "2";
     mkToken PUNCTUATION_SEMICOLON ";"; mkToken UNKNOWN "@"; END_TOKEN]
    = (firstn 2
         (tree_tokens
            (VarDeclNode (mkToken KEYWORD_INT "int") (mkToken IDENTIFIER "x")
               (Some (BinaryOpNode (Some (NumberNode (mkToken INTEGER_LITERAL "1")))
                        (mkToken OPERATOR_PLUS "+")
                        (Some (NumberNode (mkToken INTEGER_LITERAL "2")))))))
       ++ eq
       :: skipn 2
            (tree_tokens
               (VarDeclNode (mkToken KEYWORD_INT "int") (mkToken IDENTIFIER "x")
                  (Some (BinaryOpNode (Some (NumberNode (mkToken INTEGER_LITERAL "1")))
                           (mkToken OPERATOR_PLUS "+")
                           (Some (NumberNode (mkToken INTEGER_LITERAL "2")))))))
       ++ semi :: rest)%list /\
    type eq = OPERATOR_ASSIGN /\ type semi = PUNCTUATION_SEMICOLON /\
    Parser.current_token_idx
      (Parser.mkParser
         [mkToken KEYWORD_INT "int"; mkToken IDENTIFIER "x"; mkToken OPERATOR_ASSIGN "=";
          mkToken INTEGER_LITERAL "1"; mkToken OPERATOR_PLUS "+";
          mkToken INTEGER_LITERAL "2"; mkToken PUNCTUATION_SEMICOLON ";";
          mkToken UNKNOWN "@"; END_TOKEN] 7)
    = List.length
        (tree_tokens
           (VarDeclNode (mkToken KEYWORD_INT "int") (mkToken IDENTIFIER "x")
              (Some (BinaryOpNode (Some (NumberNode (mkToken INTEGER_LITERAL "1")))
                       (mkToken OPERATOR_PLUS "+")
                       (Some (NumberNode (mkToken INTEGER_LITERAL "2"))))))) + 2.
Proof. apply tree_holds_consumed_tokens. reflexivity. Defined.

Lemma left_deep_fold : forall ops left a,
  left_deep_opt left = true -> fold_ops_opt left ops = Some a -> left_deep a = true.
Proof.
  induction ops as [|[op n] ops IH]; intros left a Hl Hf.
  - simpl in Hf. subst left. exact Hl.
  - unfold fold_ops_opt in Hf. cbn [fold_left fst snd] in Hf.
    apply (IH _ a) in Hf; [assumption|].
    cbn [left_deep_opt left_deep]. fold (left_deep_opt left). rewrite Hl. reflexivity.
Qed.

(** A returned tree is a [VarDeclNode] with a non-null initializer, and in
    the initializer every [BinaryOpNode] has a [NumberNode] as right child:
    the tree is a left-deep chain, never nested to the right, and only the
    leftmost operand can be null. *)
Theorem parse_tree_is_left_deep (ts : list Token) (tree : AstNode) (q : Parser.Parser) :
  Parser.parse (Parser.new ts) = Parser.Done (Some tree) q ->
  exists kw id e, tree = VarDeclNode kw id (Some e) /\ left_deep e = true.
Proof.
  intros H. apply parse_inversion in H
    as (kw & id & eq & first & ops & semi & rest & _ & _ & _ & _ & Hfirst & _ & _ & -> & _).
  destruct (fold_ops_opt_some ops (option_map NumberNode first)) as (a & Ha).
  { destruct first as [n|]; [left; simpl; eauto | right; exact Hfirst]. }
  exists kw, id, a. rewrite Ha. split; [reflexivity|].
  eapply left_deep_fold; [|exact Ha]. destruct first; reflexivity.
Qed.

Lemma parse_tree_is_left_deep_witness :
  exists kw id e,
    VarDeclNode (mkToken KEYWORD_INT "int") (mkToken IDENTIFIER "x")
      (Some (BinaryOpNode None (mkToken OPERATOR_PLUS "+")
               (Some (NumberNode (mkToken INTEGER_LITERAL "5")))))
    = VarDeclNode kw id (Some e) /\ left_deep e = true.
Proof.
  apply (parse_tree_is_left_deep
           [mkToken KEYWORD_INT "int"; mkToken IDENTIFIER "x"; mkToken OPERATOR_ASSIGN "=";
            mkToken OPERATOR_PLUS "+"; mkToken INTEGER_LITERAL "5";
            mkToken PUNCTUATION_SEMICOLON ";"; END_TOKEN]
           _
           (Parser.mkParser
              [mkToken KEYWORD_INT "int"; mkToken IDENTIFIER "x"; mkToken OPERATOR_ASSIGN "=";
               mkToken OPERATOR_PLUS "+"; mkToken INTEGER_LITERAL "5";
               mkToken PUNCTUATION_SEMICOLON ";"; END_TOKEN] 6)).
  reflexivity.
Defined.

(** ** What the grammar consumes *)

Lemma operands_grammar_kind ops :
  forallb operand_ok ops = true -> forallb grammar_kind (operands ops) = true.
Proof.
  induction ops as [|[op n] ops IH]; intros H; [reflexivity|].
  cbn [forallb] in H. apply andb_true_iff in H as [Hon H].
  unfold operand_ok, is_sum_operator in Hon. cbn [fst snd] in Hon.
  apply andb_true_iff in Hon as [Hop Hn]. apply TokenType_eqb_eq in Hn.
  cbn [operands flat_map fst snd List.app forallb]. fold (operands ops).
  rewrite (IH H). unfold grammar_kind. rewrite Hn.
  apply orb_true_iff in Hop as [Hop | Hop]; apply TokenType_eqb_eq in Hop;
    rewrite Hop; reflexivity.
Qed.

(** If [parse] returns a tree, every token in front of the final cursor is
    of a kind the grammar uses: a [*], a [/], an unrecognized character or
    the end marker among them always makes [parse] fail. *)
Theorem parse_consumes_grammar_tokens
    (ts : list Token) (tree : AstNode) (q : Parser.Parser) :
  Parser.parse (Parser.new ts) = Parser.Done (Some tree) q ->
  forallb grammar_kind (firstn (Parser.current_token_idx q) ts) = true.
Proof.
  intros H. apply parse_inversion in H
    as (kw & id & eq & first & ops & semi & rest
        & Hts & Hkw & Hid & Heq & Hfirst & Hok & Hsemi & _ & ->).
  cbn [Parser.current_token_idx]. rewrite Hts.
  replace (first_term first ++ operands ops ++ semi :: rest)%list
    with (((first_term first ++ operands ops) ++ [semi]) ++ rest)%list
    by (rewrite <- !app_assoc; reflexivity).
  replace (4 + List.length (first_term first ++ operands ops))
    with (3 + (List.length ((first_term first ++ operands ops) ++ [semi]) + 0))
    by (rewrite (length_app (first_term first ++ operands ops)); simpl; lia).
  cbn [Nat.add firstn].
  rewrite firstn_app_2. cbn [firstn]. rewrite app_nil_r.
  cbn [forallb]. rewrite !forallb_app. cbn [forallb].
  rewrite (operands_grammar_kind ops Hok).
  unfold grammar_kind at 1 2 3 5. rewrite Hkw, Hid, Heq, Hsemi.
  destruct first as [n|]; cbn [first_term forallb]; [|reflexivity].
  unfold grammar_kind. rewrite Hfirst. reflexivity.
Qed.

Lemma parse_consumes_grammar_tokens_witness :
  forallb grammar_kind
    (firstn
       (Parser.current_token_idx
          (Parser.mkParser
             [mkToken KEYWORD_INT "int"; mkToken IDENTIFIER "x";
              mkToken OPERATOR_ASSIGN "="; mkToken INTEGER_LITERAL "5";
              mkToken PUNCTUATION_SEMICOLON ";"; mkToken OPERATOR_MULTIPLY "*"; END_TOKEN]
             5))
       [mkToken KEYWORD_INT "int"; mkToken IDENTIFIER "x";
        mkToken OPERATOR_ASSIGN "="; mkToken INTEGER_LITERAL "5";
        mkToken PUNCTUATION_SEMICOLON ";"; mkToken OPERATOR_MULTIPLY "*"; END_TOKEN]) = true.
Proof.
  apply (parse_consumes_grammar_tokens _
           (VarDeclNode (mkToken KEYWORD_INT "int") (mkToken IDENTIFIER "x")
              (Some (NumberNode (mkToken INTEGER_LITERAL "5"))))).
  reflexivity.
Defined.

(** * Further properties of the pipeline and of printing *)

(** ** Source text to tree *)

(** For every source text the pipeline of [main] runs to the end: the
    driver loop stops, and [parse] returns -- a tree or [nullptr] -- without
    [peek] ever reading outside the token sequence. *)
Theorem compile_returns (src : string) :
  exists r q, compile src = Parser.Done r q.
Proof.
  destruct (tokenize_total src) as (toks & Htok & _).
  unfold compile. rewrite Htok.
  destruct (parse_safe toks END_TOKEN eq_refl) as (r & q & Hrun & _).
  eauto.
Qed.

Lemma parse_tree_tokens_incl ts tree q :
  Parser.parse (Parser.new ts) = Parser.Done (Some tree) q ->
  incl (tree_tokens tree) ts.
Proof.
  intros H. apply parse_inversion in H
    as (kw & id & eq & first & ops & semi & rest & Hts & _ & _ & _ & _ & _ & _ & -> & _).
  cbn [tree_tokens]. fold (tree_tokens_opt (fold_ops_opt (option_map NumberNode first) ops)).
  rewrite tree_tokens_fold.
  replace (tree_tokens_opt (option_map NumberNode first)) with (first_term first)
    by (destruct first; reflexivity).
  intros t Ht. rewrite Hts.
  destruct Ht as [<- | [<- | Ht]]; [left; reflexivity | right; left; reflexivity |].
  do 3 right. rewrite app_assoc. apply in_or_app. left. exact Ht.
Qed.

Lemma compile_tree_tokens (P : Token -> bool) src tree q :
  (forall pos, pos <= length src ->
               P (fst (Lexer.getNextToken (Lexer.mkLexer src pos))) = true) ->
  compile src = Parser.Done (Some tree) q ->
  forallb P (tree_tokens tree) = true.
Proof.
  intros HP H. unfold compile in H.
  destruct (Lexer.tokenize src) as [toks|] eqn:Htok; [|discriminate].
  assert (Hall : forallb P toks = true).
  { eapply (collect_forallb P src HP); [|exact Htok]. lia. }
  apply forallb_forall. intros t Ht.
  apply (parse_tree_tokens_incl _ _ _ H) in Ht.
  rewrite forallb_forall in Hall. auto.
Qed.

(** In a tree made from source text every token carries a lexeme of its
    kind: the type token is [int], the identifier is a letter followed by
    letters and digits and is not [int], every number is a non-empty string
    of digits, and every operator is [+] or [-] (with C8). *)
Theorem compile_tree_lexemes_fit_kinds (src : string) (tree : AstNode) (q : Parser.Parser) :
  compile src = Parser.Done (Some tree) q ->
  forallb lexeme_ok (tree_tokens tree) = true.
Proof.
  intros H. apply (compile_tree_tokens lexeme_ok src tree q); [|exact H].
  intros pos Hpos. apply getNextToken_lexeme_ok, Hpos.
Qed.

Lemma compile_tree_lexemes_fit_kinds_witness :
  forallb lexeme_ok
    (tree_tokens
       (VarDeclNode (mkToken KEYWORD_INT "int") (mkToken IDENTIFIER "n1")
          (Some (NumberNode (mkToken INTEGER_LITERAL "007"))))) = true.
Proof.
  apply (compile_tree_lexemes_fit_kinds " int n1=007 ; " _
           (Parser.mkParser
              [mkToken KEYWORD_INT "int"; mkToken IDENTIFIER "n1";
               mkToken OPERATOR_ASSIGN "="; mkToken INTEGER_LITERAL "007";
               mkToken PUNCTUATION_SEMICOLON ";"; END_TOKEN] 5)).
  reflexivity.
Defined.

(** ** [tokenTypeToString] *)

(** [tokenTypeToString] gives different names to different kinds: two
    kinds have the same name exactly when they are the same kind. *)
Theorem tokenTypeToString_injective (a b : TokenType) :
  (tokenTypeToString a =? tokenTypeToString b)%string = TokenType_eqb a b.
Proof. destruct a, b; reflexivity. Qed.

(** ** [printAst] *)

Lemma newlines_app s t : newlines (s ++ t) = newlines s + newlines t.
Proof. induction s as [|c s IH]; simpl; [reflexivity|]. rewrite IH. lia. Qed.

Lemma newlines_spaces n : newlines (spaces n) = 0.
Proof. induction n as [|n IH]; simpl; auto. Qed.


Lemma printNode_newlines : forall (n : AstNode) (k : nat),
  forallb one_line (tree_tokens n) = true ->
  newlines (printNode n k) = print_lines n.
Proof.
  fix IH 1. intros n k H. destruct n as [t | l op r | ty id e];
    cbn [printNode print_lines tree_tokens] in *.
  - simpl in H. apply andb_true_iff in H as [Ht _]. apply Nat.eqb_eq in Ht.
    rewrite !newlines_app, newlines_spaces, Ht. reflexivity.
  - rewrite forallb_app in H. apply andb_true_iff in H as [Hl H].
    cbn [forallb] in H. apply andb_true_iff in H as [Hop Hr]. apply Nat.eqb_eq in Hop.
    rewrite !newlines_app, newlines_spaces, Hop.
    assert (El : newlines (match l with Some a => printNode a (k + 2) | None => "" end)
                 = match l with Some a => print_lines a | None => 0 end).
    { destruct l as [a|]; [apply IH; exact Hl | reflexivity]. }
    assert (Er : newlines (match r with Some b => printNode b (k + 2) | None => "" end)
                 = match r with Some b => print_lines b | None => 0 end).
    { destruct r as [b|]; [apply IH; exact Hr | reflexivity]. }
    rewrite El, Er. simpl. lia.
  - cbn [forallb] in H. apply andb_true_iff in H as [Hty H].
    apply andb_true_iff in H as [Hid He].
    apply Nat.eqb_eq in Hty. apply Nat.eqb_eq in Hid.
    rewrite !newlines_app, newlines_spaces, Hty, Hid.
    assert (Ee : newlines (match e with Some a => printNode a (k + 2) | None => "" end)
                 = match e with Some a => print_lines a | None => 0 end).
    { destruct e as [a|]; [apply IH; exact He | reflexivity]. }
    rewrite Ee. simpl. lia.
Qed.

(** When no lexeme in the tree holds a newline, [printAst] writes one line
    for a number, three lines plus those of the children for a binary
    operation, two lines plus those of the initializer for a declaration,
    at every indentation from 0 on at which its [int] arithmetic does not
    overflow on the tree; for a null node it writes nothing. *)
Theorem printAst_line_count (node : option AstNode) (indent : nat) :
  indent_fits node indent = true ->
  forallb one_line (tree_tokens_opt node) = true ->
  newlines (printAst node indent) =
  match node with Some n => print_lines n | None => 0 end.
Proof.
  intros _ H. destruct node as [n|]; cbn [printAst].
  - apply printNode_newlines. exact H.
  - reflexivity.
Qed.

Lemma printAst_line_count_witness :
  newlines
    (printAst
       (Some (BinaryOpNode None (mkToken OPERATOR_PLUS "+")
                (Some (NumberNode (mkToken INTEGER_LITERAL "5"))))) 3)
  = print_lines
      (BinaryOpNode None (mkToken OPERATOR_PLUS "+")
         (Some (NumberNode (mkToken INTEGER_LITERAL "5")))).
Proof.
  apply (printAst_line_count
           (Some (BinaryOpNode None (mkToken OPERATOR_PLUS "+")
                    (Some (NumberNode (mkToken INTEGER_LITERAL "5"))))) 3).
  - reflexivity.
  - reflexivity.
Defined.


